(** * A Kademlia k-bucket routing table (go-libp2p-kbucket, [table.go])

    The routing table of [table.go] as Rocq functions, and the properties its
    specification states about it.

    Only [table.go] is among the sources.  The key space ([util.go]), the
    bucket ([bucket.go]) and the distance sorter ([sorting.go]) are used by
    [table.go] but are not: they are modelled from the specification, each
    under a comment that says so.  The Go runtime ([time], [float64],
    slices) is modelled by what the language defines. *)

From Stdlib Require Import List ZArith NArith Lia Bool Ascii String.
From Stdlib Require Import Sorting.Sorted Permutation.
From Stdlib Require Import Floats Uint63.
Import ListNotations.

(** ** Outcomes of a call

    A Go call returns, panics (an index outside a slice, a negative slice
    bound, a capacity that [make] refuses) or never returns ([nextBucket] is
    recursive with no guard).  The last case is what running out of fuel
    stands for. *)

Inductive outcome (A : Type) : Type :=
| Done (a : A)
| Panic
| OutOfFuel.

Arguments Done {A} a.
Arguments Panic {A}.
Arguments OutOfFuel {A}.

Definition bind {A B : Type} (m : outcome A) (f : A -> outcome B) : outcome B :=
  match m with
  | Done a => f a
  | Panic => Panic
  | OutOfFuel => OutOfFuel
  end.

Notation "x <- m ;; f" := (bind m (fun x => f))
  (at level 61, m at next level, right associativity).
Notation "' pat <- m ;; f" := (bind m (fun x => match x with pat => f end))
  (at level 61, pat pattern, m at next level, right associativity).

(** A slice read [s[i]]: it panics outside the slice. *)
Definition index {A : Type} (s : list A) (i : nat) : outcome A :=
  match nth_error s i with
  | Some a => Done a
  | None => Panic
  end.

(** A slice write [s[i] = a] (here: the mutation of the bucket [s[i]] points to). *)
Fixpoint store {A : Type} (s : list A) (i : nat) (a : A) : list A :=
  match s, i with
  | [], _ => []
  | _ :: s', O => a :: s'
  | x :: s', S i' => x :: store s' i' a
  end.

(** A Go [int] is a 64-bit integer: the sum of two of them wraps around. *)
Definition int (z : Z) : Z := ((z + 2 ^ 63) mod 2 ^ 64 - 2 ^ 63)%Z.

(** ** Time

    A [time.Time] is an instant, counted in nanoseconds from the zero time
    (January 1, year 1); the zero value of the type is that instant.  A
    [time.Duration] is an int64 of nanoseconds, and [Time.Sub] saturates at
    the ends of that range. *)

Definition Time := Z.
Definition Duration := Z.

Definition zeroTime : Time := 0%Z.
Definition minDuration : Duration := (- 2 ^ 63)%Z.
Definition maxDuration : Duration := (2 ^ 63 - 1)%Z.

Definition Sub (t u : Time) : Duration :=
  let d := (t - u)%Z in
  if (d <? minDuration)%Z then minDuration
  else if (maxDuration <? d)%Z then maxDuration
  else d.

(** [time.Since(t)], the clock reading [now]. *)
Definition Since (now t : Time) : Duration := Sub now t.

(** The conversion [float64(d)] of an int64: the nearest binary64 value,
    ties to even. *)
Definition float64 (d : Duration) : float :=
  if (d <? 0)%Z then
    if (d <=? minDuration)%Z then (- 0x1p63)%float
    else (- PrimFloat.of_uint63 (Uint63.of_Z (- d)))%float
  else PrimFloat.of_uint63 (Uint63.of_Z d).

(** ** Keys ([util.go], not among the sources) *)

(** Modelled from the spec: the type [ID] of [util.go] is missing.  Section
    3: a key is a fixed-width bit string, read as a big-endian unsigned
    integer when distances are compared.  A key is that integer. *)
Definition ID := N.

(** [peer.ID] is a Go string. *)
Definition peerID := string.

(** Modelled from the spec: [xor] of [util.go] is missing.  Section 3: the
    distance of two keys is their bitwise XOR. *)
Definition xor (a b : ID) : ID := N.lxor a b.

(** The number of bits of [x] from its leading one on. *)
Definition bitlen (x : ID) : nat := N.to_nat (N.size x).

Section Table.

(** The width of a key in bits, and the hash of a peer id to its key
    ([ConvertPeerID] of [util.go], a parameter here). *)
Variable W : nat.
Variable ConvertPeerID : peerID -> ID.

(** Modelled from the spec: the count of leading zero bits behind
    [CommonPrefixLen] is missing with [util.go].  It is the width less the
    bits from the leading one on. *)
Definition ZeroPrefixLen (x : ID) : nat := W - bitlen x.

(** Modelled from the spec: [CommonPrefixLen] of [util.go] is missing.
    Section 3: the number of leading bits equal between [a] and [b], between
    0 and the width; these are the leading zero bits of their XOR. *)
Definition CommonPrefixLen (a b : ID) : nat := ZeroPrefixLen (xor a b).

(** [x] is a key of [W] bits. *)
Definition fits (x : ID) : Prop := (x < 2 ^ N.of_nat W)%N.

(** ** Buckets ([bucket.go], not among the sources) *)

(** Modelled from the spec: the declaration of [peerInfo] is missing.
    Section 3 gives the record: id, key, time of the last successful
    outbound query; [table.go] builds it in this order of fields. *)
Record peerInfo : Type := {
  Id : peerID;
  lastSuccessfulOutboundQuery : Time;
  dhtId : ID
}.

(** Modelled from the spec: the type [bucket] is missing.  Section 3: an
    ordered sequence of records, the most recently inserted at the front. *)
Definition bucket := list peerInfo.

(** Modelled from the spec: [newBucket] is missing; the table starts with
    one empty bucket (section 3). *)
Definition newBucket : bucket := [].

(** Modelled from the spec: [bucket.peers] is missing.  Section 4.2: a
    snapshot of the records, in the order of the bucket. *)
Definition peers (b : bucket) : list peerInfo := b.

(** Modelled from the spec: [bucket.peerIds] is missing.  Section 4.2: a
    snapshot of the ids. *)
Definition peerIds (b : bucket) : list peerID := map Id b.

(** Modelled from the spec: [bucket.getPeer] is missing.  Section 4.2: the
    record of that id, if there is one. *)
Definition getPeer (b : bucket) (p : peerID) : option peerInfo :=
  find (fun r => String.eqb (Id r) p) b.

(** Modelled from the spec: [bucket.pushFront] is missing.  Section 4.2: it
    prepends. *)
Definition pushFront (r : peerInfo) (b : bucket) : bucket := r :: b.

(** Modelled from the spec: [bucket.len] is missing; it is a Go int. *)
Definition len (b : bucket) : Z := Z.of_nat (List.length b).

(** Modelled from the spec: [bucket.remove] is missing.  Section 4.2: it
    removes the record of that id and returns whether a record was removed.
    The result is the bucket as the call leaves it (without the first record
    of that id) and that boolean. *)
Fixpoint remove (b : bucket) (p : peerID) : bucket * bool :=
  match b with
  | [] => ([], false)
  | r :: b' =>
      if String.eqb (Id r) p then (b', true)
      else let '(b'', found) := remove b' p in (r :: b'', found)
  end.

(** Modelled from the spec: [bucket.split] is missing.  Section 4.3: the
    split at depth [d] partitions the records of a bucket into those that do
    and those that do not share at least [d+1] bits with [local], and it
    preserves the assignment invariant.  With [table.go]'s
    [bucketIdForPeer], which looks a record of common prefix length [c] up in
    bucket [min c (m-1)], the invariant leaves one choice: the records
    sharing at least [d+1] bits are the ones returned, to become bucket
    [d+1], and the others stay.  [nextBucket]'s comments say the same (the
    peers of the folded bucket "really belong" to a later one).  The result
    is the pair of the bucket as the call leaves it and the bucket returned. *)
Definition split (cpl : nat) (target : ID) (b : bucket) : bucket * bucket :=
  (filter (fun r => negb (cpl <? CommonPrefixLen (dhtId r) target)%nat) b,
   filter (fun r => (cpl <? CommonPrefixLen (dhtId r) target)%nat) b).

(** Modelled from the spec: section 4.3's second sentence names the two
    parts the other way round (the records sharing at least [d+1] bits
    remain, the others form the new bucket).  This is the split as that
    sentence words it; it is compared with [split] below. *)
Definition split_as_worded (d : nat) (target : ID) (b : bucket) : bucket * bucket :=
  (filter (fun r => (d <? CommonPrefixLen (dhtId r) target)%nat) b,
   filter (fun r => negb (d <? CommonPrefixLen (dhtId r) target)%nat) b).

(** ** The distance sorter ([sorting.go], not among the sources) *)

(** Modelled from the spec: the declaration of [peerDistance] is missing.
    [table.go] reads the id of an entry as its field [p]; the other field is
    the XOR distance to the target (section 2). *)
Record peerDistance : Type := {
  p_ : peerID;
  distance : ID
}.

(** Modelled from the spec: the entry the sorter makes of a record is
    missing with [sorting.go]: the id, and the distance of the key to the
    target. *)
Definition appendPeer (target : ID) (r : peerInfo) : peerDistance :=
  {| p_ := Id r; distance := xor target (dhtId r) |}.

(** Modelled from the spec: [appendPeersFromList] is missing.  Section 4.6:
    the records of the bucket are appended to the candidates. *)
Definition appendPeersFromList (target : ID) (pds : list peerDistance) (l : bucket)
  : list peerDistance :=
  pds ++ map (appendPeer target) l.

(** The order the sorter sorts by. *)
Definition closer (x y : peerDistance) : Prop := (distance x <= distance y)%N.

(** Modelled from the spec: the insertion step of [sort] below. *)
Fixpoint insert (x : peerDistance) (l : list peerDistance) : list peerDistance :=
  match l with
  | [] => [x]
  | y :: l' => if (distance x <=? distance y)%N then x :: l else y :: insert x l'
  end.

(** Modelled from the spec: [peerDistanceSorter.sort] is missing.  Section
    4.6: the candidates are sorted by XOR distance to the target,
    ascending.  An insertion sort does that. *)
Fixpoint sort (l : list peerDistance) : list peerDistance :=
  match l with
  | [] => []
  | x :: l' => insert x (sort l')
  end.

(** ** The routing table ([table.go]) *)

(** The two errors of table.go:19-20. *)
Inductive error : Type :=
| ErrPeerRejectedHighLatency
| ErrPeerRejectedNoCapacity.

(** The fields of [RoutingTable] that the operations read.  The lock, the
    context and the refresh map are left out; the two callbacks are the
    events below, the latency metrics and the clock are in [Env]. *)
Record RoutingTable : Type := {
  local : ID;
  maxLatency : Duration;
  buckets : list bucket;
  bucketsize : Z;
  maxLastSuccessfulOutboundThreshold : float;
  rtRefreshInterval : Duration
}.

(** A call of [rt.PeerAdded] or [rt.PeerRemoved]. *)
Inductive event : Type :=
| PeerAdded (p : peerID)
| PeerRemoved (p : peerID).

(** What a call reads from outside the table: the clock and the latency
    metrics.  One call reads one instant. *)
Record Env : Type := {
  now : Time;
  LatencyEWMA : peerID -> Duration
}.

(** The assignment [rt.buckets = bs], and any other change of the buckets. *)
Definition set_buckets (rt : RoutingTable) (bs : list bucket) : RoutingTable :=
  {| local := local rt;
     maxLatency := maxLatency rt;
     buckets := bs;
     bucketsize := bucketsize rt;
     maxLastSuccessfulOutboundThreshold := maxLastSuccessfulOutboundThreshold rt;
     rtRefreshInterval := rtRefreshInterval rt |}.

(** [NewRoutingTable] (table.go:69-102): one empty bucket; an error when
    either function is nil.  The goroutine it starts is [background] below;
    the two functions are asked at every visit of that loop, and their
    answers are in [Liveness]. *)
Definition NewRoutingTable (bucketsize : Z) (localID : ID) (latency : Duration)
    (maxLastSuccessfulOutboundThreshold : float) (rtRefreshInterval : Duration)
    (peerPingFnc peerConnectednessFnc : option (peerID -> bool))
  : option RoutingTable :=
  match peerPingFnc, peerConnectednessFnc with
  | Some _, Some _ =>
      Some {| local := localID;
              maxLatency := latency;
              buckets := [newBucket];
              bucketsize := bucketsize;
              maxLastSuccessfulOutboundThreshold := maxLastSuccessfulOutboundThreshold;
              rtRefreshInterval := rtRefreshInterval |}
  | _, _ => None
  end.

(** [bucketIdForPeer] (table.go:409-417).  Indices are naturals: on an empty slice of buckets
    Go's index [-1] and the index [0] here are both outside the slice, and
    the read that follows panics either way. *)
Definition bucketIdForPeer (rt : RoutingTable) (p : peerID) : nat :=
  let peerID := ConvertPeerID p in
  let cpl := CommonPrefixLen peerID (local rt) in
  if (List.length (buckets rt) <=? cpl)%nat then (List.length (buckets rt) - 1)%nat else cpl.

(** The first three lines of [nextBucket] (table.go:273-275): split the
    last bucket at depth [len(rt.buckets)-1] and append what the split
    returns.  The split is an argument, so that the two readings of section
    4.3 can be compared. *)
Definition splitLast (sp : nat -> ID -> bucket -> bucket * bucket) (rt : RoutingTable)
  : outcome (RoutingTable * bucket) :=
  let last := (List.length (buckets rt) - 1)%nat in
  b <- index (buckets rt) last ;;
  let '(kept, newBucket) := sp last (local rt) b in
  Done (set_buckets rt (store (buckets rt) last kept ++ [newBucket]), newBucket).

(** [nextBucket] (table.go:269-282): split and append, and again while the
    appended bucket is full. *)
Fixpoint nextBucket (fuel : nat) (rt : RoutingTable) : outcome RoutingTable :=
  match fuel with
  | O => OutOfFuel
  | S fuel' =>
      '(rt', newBucket) <- splitLast split rt ;;
      if (bucketsize rt' <=? len newBucket)%Z then nextBucket fuel' rt' else Done rt'
  end.

(** The test of the eviction sweep (table.go:220): the age of the record,
    as a float64 of nanoseconds, is above the threshold. *)
Definition stale (threshold : float) (now : Time) (pc : peerInfo) : bool :=
  (threshold <? float64 (Since now (lastSuccessfulOutboundQuery pc)))%float.

(** The eviction sweep at the end of [addPeer] (table.go:218-228): the
    bucket without the first record of the snapshot that is stale and that
    [remove] finds. *)
Fixpoint sweep (threshold : float) (now : Time) (allPeers : list peerInfo) (b : bucket)
  : option bucket :=
  match allPeers with
  | [] => None
  | pc :: rest =>
      if stale threshold now pc then
        match remove b (Id pc) with
        | (b', true) => Some b'
        | (_, false) => sweep threshold now rest b
        end
      else sweep threshold now rest b
  end.

(** What a call of [addPeer] leaves: the table, the callbacks it has fired
    and the pair it returns ([None] is the nil error). *)
Definition result : Type := RoutingTable * list event * (bool * option error).

(** The three lines that admit: [pushFront], [rt.PeerAdded(p)], [return true, nil]. *)
Definition pushNew (rt : RoutingTable) (bucketID : nat) (b : bucket) (r : peerInfo)
  : result :=
  (set_buckets rt (store (buckets rt) bucketID (pushFront r b)),
   [PeerAdded (Id r)], (true, None)).

(** The end of [addPeer] (table.go:216-230): the sweep, and the admission
    or [ErrPeerRejectedNoCapacity]. *)
Definition evict (e : Env) (rt : RoutingTable) (bucketID : nat) (b : bucket) (r : peerInfo)
  : result :=
  match sweep (maxLastSuccessfulOutboundThreshold rt) (now e) (peers b) b with
  | Some b' => pushNew rt bucketID b' r
  | None => (rt, [], (false, Some ErrPeerRejectedNoCapacity))
  end.

(** The record [addPeer] pushes: [&peerInfo{p, lastSuccessfulOutboundQuery, ConvertPeerID(p)}]. *)
Definition entry (e : Env) (p : peerID) (queryPeer : bool) : peerInfo :=
  {| Id := p;
     lastSuccessfulOutboundQuery := if queryPeer then now e else zeroTime;
     dhtId := ConvertPeerID p |}.

(** [addPeer] (table.go:175-231) *)
Definition addPeer (fuel : nat) (e : Env) (rt : RoutingTable) (p : peerID) (queryPeer : bool)
  : outcome result :=
  let bucketID := bucketIdForPeer rt p in
  b <- index (buckets rt) bucketID ;;
  match getPeer b p with
  | Some _ => Done (rt, [], (false, None))
  | None =>
      if (maxLatency rt <? LatencyEWMA e p)%Z then
        Done (rt, [], (false, Some ErrPeerRejectedHighLatency))
      else if (len b <? bucketsize rt)%Z then
        Done (pushNew rt bucketID b (entry e p queryPeer))
      else if (bucketID =? List.length (buckets rt) - 1)%nat then
        rt1 <- nextBucket fuel rt ;;
        let bucketID := bucketIdForPeer rt1 p in
        b <- index (buckets rt1) bucketID ;;
        if (len b <? bucketsize rt1)%Z then
          Done (pushNew rt1 bucketID b (entry e p queryPeer))
        else Done (evict e rt1 bucketID b (entry e p queryPeer))
      else Done (evict e rt bucketID b (entry e p queryPeer))
  end.

(** [TryAddPeer] (table.go:167-172): [addPeer] under the lock. *)
Definition TryAddPeer := addPeer.

(** The write through the pointer [getPeer] returns. *)
Fixpoint setLastSuccessfulOutboundQuery (b : bucket) (p : peerID) (t : Time) : bucket :=
  match b with
  | [] => []
  | r :: b' =>
      if String.eqb (Id r) p then
        {| Id := Id r; lastSuccessfulOutboundQuery := t; dhtId := dhtId r |} :: b'
      else r :: setLastSuccessfulOutboundQuery b' p t
  end.

(** [UpdateLastSuccessfulOutboundQuery] (table.go:235-247) *)
Definition UpdateLastSuccessfulOutboundQuery (rt : RoutingTable) (p : peerID) (t : Time)
  : outcome (RoutingTable * bool) :=
  let bucketID := bucketIdForPeer rt p in
  b <- index (buckets rt) bucketID ;;
  match getPeer b p with
  | Some _ =>
      Done (set_buckets rt
              (store (buckets rt) bucketID (setLastSuccessfulOutboundQuery b p t)), true)
  | None => Done (rt, false)
  end.

(** [removePeer] (table.go:259-267) *)
Definition removePeer (rt : RoutingTable) (p : peerID) : outcome (RoutingTable * list event) :=
  let bucketID := bucketIdForPeer rt p in
  b <- index (buckets rt) bucketID ;;
  match remove b p with
  | (b', true) => Done (set_buckets rt (store (buckets rt) bucketID b'), [PeerRemoved p])
  | (_, false) => Done (rt, [])
  end.

(** [RemovePeer] (table.go:252-256): [removePeer] under the lock. *)
Definition RemovePeer := removePeer.

(** The two loops of [NearestPeers]: take the next bucket while the sorter
    holds fewer than [count] entries. *)
Fixpoint appendWhileShort (target : ID) (count : Z) (pds : list peerDistance)
    (bs : list bucket) : list peerDistance :=
  match bs with
  | [] => pds
  | b :: bs' =>
      if (Z.of_nat (List.length pds) <? count)%Z then
        appendWhileShort target count (appendPeersFromList target pds b) bs'
      else pds
  end.

(** The largest capacity with which [make([]peerDistance, 0, cap)] returns.
    The runtime's [makeslice] panics on a negative capacity and on one whose
    size in bytes is above its allocation limit (2^48 bytes on 64-bit
    Linux), and a machine with less memory than that grants less.  The
    limit is the runtime's and the machine's, a parameter here. *)
Variable makeLimit : Z.

(** [NearestPeers] (table.go:305-367).  [make] panics on a negative capacity
    and on one above [makeLimit], and the slice expression [peers[:count]]
    on a negative bound.  The other allocations of the call (the appends
    and the slice of the result) are no larger than the table itself and
    are taken to succeed. *)
Definition NearestPeers (rt : RoutingTable) (id : ID) (count : Z) : outcome (list peerID) :=
  let cpl := CommonPrefixLen id (local rt) in
  let cpl := if (List.length (buckets rt) <=? cpl)%nat
             then (List.length (buckets rt) - 1)%nat else cpl in
  let capacity := int (count + bucketsize rt) in
  if ((capacity <? 0) || (makeLimit <? capacity))%Z then Panic
  else
    b <- index (buckets rt) cpl ;;
    let pds := appendPeersFromList id [] b in
    let pds := appendWhileShort id count pds (skipn (cpl + 1) (buckets rt)) in
    let pds := appendWhileShort id count pds (rev (firstn cpl (buckets rt))) in
    let pds := sort pds in
    if (count <? Z.of_nat (List.length pds))%Z then
      if (count <? 0)%Z then Panic
      else Done (map p_ (firstn (Z.to_nat count) pds))
    else Done (map p_ pds).

(** [Find] (table.go:285-291) *)
Definition Find (rt : RoutingTable) (id : peerID) : outcome peerID :=
  srch <- NearestPeers rt (ConvertPeerID id) 1 ;;
  match srch with
  | [] => Done EmptyString
  | x :: _ => if String.eqb x id then Done x else Done EmptyString
  end.

(** [NearestPeer] (table.go:294-302) *)
Definition NearestPeer (rt : RoutingTable) (id : ID) : outcome peerID :=
  ps <- NearestPeers rt id 1 ;;
  match ps with
  | x :: _ => Done x
  | [] => Done EmptyString
  end.

(** [Size] (table.go:370-378) *)
Definition Size (rt : RoutingTable) : Z :=
  fold_left (fun tot buck => (tot + len buck)%Z) (buckets rt) 0%Z.

(** [ListPeers] (table.go:381-390) *)
Definition ListPeers (rt : RoutingTable) : list peerID :=
  fold_left (fun ps buck => ps ++ peerIds buck) (buckets rt) [].

(** ** The liveness loop ([background])

    What one visit of the loop reads from outside the table: the clock, the
    answer of the ping and the answer of the connectedness check. *)
Record Liveness : Type := {
  clock : Time;
  pingFails : bool;
  connected : bool
}.

(** The body of the loop over the snapshot (table.go:120-137), for the
    record [ps].  The part between [Lock] and [Unlock] runs on the table as
    it is then: [rt]. *)
Definition visit (rt : RoutingTable) (lv : Liveness) (ps : peerInfo)
  : outcome (RoutingTable * list event) :=
  if (Z.quot (rtRefreshInterval rt) 3 <? Since (clock lv) (lastSuccessfulOutboundQuery ps))%Z
  then
    if pingFails lv then
      if negb (connected lv) then removePeer rt (Id ps) else Done (rt, [])
    else Done (rt, [])
  else Done (rt, []).

(** The snapshot a tick takes under the read lock (table.go:112-117). *)
Definition snapshot (rt : RoutingTable) : list peerInfo :=
  fold_left (fun ps b => ps ++ peers b) (buckets rt) [].

(** One tick with nothing else running: the visits of the snapshot in turn,
    the [i]-th reading [lv i]. *)
Fixpoint visits (rt : RoutingTable) (lv : nat -> Liveness) (i : nat) (ps : list peerInfo)
  : outcome (RoutingTable * list event) :=
  match ps with
  | [] => Done (rt, [])
  | r :: ps' =>
      '(rt1, ev1) <- visit rt (lv i) r ;;
      '(rt2, ev2) <- visits rt1 lv (S i) ps' ;;
      Done (rt2, ev1 ++ ev2)
  end.

(** One tick of [background] (table.go:110-138). *)
Definition background (rt : RoutingTable) (lv : nat -> Liveness)
  : outcome (RoutingTable * list event) :=
  visits rt lv 0 (snapshot rt).

End Table.

(** ** The invariants of section 3 *)

Section Invariants.

Variable W : nat.
Variable ConvertPeerID : peerID -> ID.

(** Bucket assignment: a record of common prefix length [c] with [local] is
    in bucket [min c (m-1)]. *)
Definition assigned (rt : RoutingTable) : Prop :=
  forall i b r,
    nth_error (buckets rt) i = Some b -> In r b ->
    i = Nat.min (CommonPrefixLen W (dhtId r) (local rt)) (List.length (buckets rt) - 1).

(** The key of a record is the key of its id. *)
Definition keyed (rt : RoutingTable) : Prop :=
  forall b r, In b (buckets rt) -> In r b -> dhtId r = ConvertPeerID (Id r).

(** Capacity: no bucket holds more than [bucketsize] records. *)
Definition within_capacity (rt : RoutingTable) : Prop :=
  forall b, In b (buckets rt) -> (len b <= bucketsize rt)%Z.

(** The states the public operations and the liveness loop lead to. *)
Inductive reachable : RoutingTable -> Prop :=
| reachable_New : forall k localID latency thr interval ping conn rt,
    NewRoutingTable k localID latency thr interval ping conn = Some rt ->
    reachable rt
| reachable_TryAddPeer : forall rt fuel e p queryPeer rt' evs res,
    reachable rt ->
    TryAddPeer W ConvertPeerID fuel e rt p queryPeer = Done (rt', evs, res) ->
    reachable rt'
| reachable_RemovePeer : forall rt p rt' evs,
    reachable rt ->
    RemovePeer W ConvertPeerID rt p = Done (rt', evs) ->
    reachable rt'
| reachable_Update : forall rt p t rt' ok,
    reachable rt ->
    UpdateLastSuccessfulOutboundQuery W ConvertPeerID rt p t = Done (rt', ok) ->
    reachable rt'
| reachable_visit : forall rt lv ps rt' evs,
    reachable rt ->
    visit W ConvertPeerID rt lv ps = Done (rt', evs) ->
    reachable rt'.

(** The record was pushed on [b'], which is the bucket [b] of the peer in
    [rt] when that had room, and [b] without a stale record otherwise. *)
Definition pushed (e : Env) (rt : RoutingTable) (p : peerID) (queryPeer : bool)
    (b b' : bucket) (rt' : RoutingTable) : Prop :=
  nth_error (buckets rt) (bucketIdForPeer W ConvertPeerID rt p) = Some b /\
  ((b' = b /\ (len b < bucketsize rt)%Z) \/
   ((bucketsize rt <= len b)%Z /\
    sweep (maxLastSuccessfulOutboundThreshold rt) (now e) (peers b) b = Some b')) /\
  rt' = set_buckets rt
          (store (buckets rt) (bucketIdForPeer W ConvertPeerID rt p)
             (pushFront (entry ConvertPeerID e p queryPeer) b')).

(** What the operations rely on: there is a bucket, and the records are
    where [bucketIdForPeer] looks for them. *)
Definition well_formed (rt : RoutingTable) : Prop :=
  buckets rt <> [] /\ assigned rt /\ keyed rt.

(** The last bucket. *)
Definition lastBucket (rt : RoutingTable) : option bucket :=
  nth_error (buckets rt) (List.length (buckets rt) - 1).

(** The calls of [PeerAdded], and of [PeerRemoved], among the events. *)
Definition numAdded (evs : list event) : nat :=
  List.length (filter (fun ev => match ev with PeerAdded _ => true | _ => false end) evs).

Definition numRemoved (evs : list event) : nat :=
  List.length (filter (fun ev => match ev with PeerRemoved _ => true | _ => false end) evs).

End Invariants.

(** ** The specification's statements, as predicates *)

Section Statements.

Variable W : nat.
Variable ConvertPeerID : peerID -> ID.
Variable makeLimit : Z.

(** Self-exclusion (sections 3 and 8): [TryAddPeer] does not admit the
    local id, whatever [queryPeer] is, and the local id is in no bucket. *)
Definition self_excluded (localId : peerID) (rt : RoutingTable) : Prop :=
  (forall fuel e queryPeer rt' evs res,
     TryAddPeer W ConvertPeerID fuel e rt localId queryPeer = Done (rt', evs, res) ->
     fst res = false) /\
  ~ In localId (ListPeers rt).

(** Section 4.3 on one split at depth [d = m-1], for a split function [sp]:
    the records sharing at least [d+1] bits remain in bucket [d], those
    sharing exactly [d] bits are the new bucket, and every record is then in
    the bucket the assignment invariant names. *)
Definition split_as_claimed (sp : nat -> ID -> bucket -> bucket * bucket)
    (rt : RoutingTable) : Prop :=
  forall b rt' nb,
    lastBucket rt = Some b ->
    splitLast sp rt = Done (rt', nb) ->
    let d := (List.length (buckets rt) - 1)%nat in
    nth_error (buckets rt') d
    = Some (filter (fun r => (d + 1 <=? CommonPrefixLen W (dhtId r) (local rt))%nat) b) /\
    nth_error (buckets rt') (d + 1)
    = Some (filter (fun r => (CommonPrefixLen W (dhtId r) (local rt) =? d)%nat) b) /\
    assigned W rt'.

(** The XOR distances of a list of ids to a target. *)
Definition distances (t : ID) (ids : list peerID) : list ID :=
  map (fun p => xor t (ConvertPeerID p)) ids.

(** Section 8, nearest correctness: the distances of the ids returned are
    ascending, and on a table that is not empty the first id returned is as
    close to the target as any id of [ListPeers]. *)
Definition nearest_as_claimed (rt : RoutingTable) (t : ID) (n : Z) : Prop :=
  forall out,
    NearestPeers W makeLimit rt t n = Done out ->
    Sorted N.le (distances t out) /\
    (ListPeers rt <> [] ->
     exists p rest,
       out = p :: rest /\
       forall q, In q (ListPeers rt) ->
                 (xor t (ConvertPeerID p) <= xor t (ConvertPeerID q))%N).

(** Section 8, round trip: [TryAddPeer(p, true)] and then [RemovePeer(p)]
    leave [Size] as it was and fire one [PeerAdded] and one [PeerRemoved]. *)
Definition round_trip_as_claimed (fuel : nat) (e : Env) (rt : RoutingTable) (p : peerID)
  : Prop :=
  forall rt1 ev1 res rt2 ev2,
    TryAddPeer W ConvertPeerID fuel e rt p true = Done (rt1, ev1, res) ->
    RemovePeer W ConvertPeerID rt1 p = Done (rt2, ev2) ->
    Size rt2 = Size rt /\ numAdded (ev1 ++ ev2) = 1%nat /\ numRemoved (ev1 ++ ev2) = 1%nat.

(** Section 9: a record that was never queried is stale for every threshold. *)
Definition never_queried_is_stale (now : Time) : Prop :=
  forall threshold pc,
    lastSuccessfulOutboundQuery pc = zeroTime -> stale threshold now pc = true.

(** Section 8, capacity: the buckets before the last hold at most
    [bucketsize] records, and so does the last when an admission returns. *)
Definition capacity_as_claimed (rt : RoutingTable) : Prop :=
  (forall i b,
     nth_error (buckets rt) i = Some b -> (i < List.length (buckets rt) - 1)%nat ->
     (len b <= bucketsize rt)%Z) /\
  (forall fuel e p queryPeer rt' evs res b,
     TryAddPeer W ConvertPeerID fuel e rt p queryPeer = Done (rt', evs, res) ->
     lastBucket rt' = Some b -> (len b <= bucketsize rt')%Z).

(** Section 4.3: the cascade returns, and then the last bucket is not full. *)
Definition unfold_returns (rt : RoutingTable) : Prop :=
  exists fuel rt' b,
    nextBucket W fuel rt = Done rt' /\
    lastBucket rt' = Some b /\ (len b < bucketsize rt')%Z.

(** The id [p] is in some bucket. *)
Definition present (rt : RoutingTable) (p : peerID) : Prop :=
  exists b, In b (buckets rt) /\ In p (peerIds b).

(** [Find] is membership: it returns [p] when [p] is in some bucket and
    the empty id when it is in none. *)
Definition find_as_claimed (rt : RoutingTable) (p : peerID) : Prop :=
  (present rt p -> Find W ConvertPeerID makeLimit rt p = Done p) /\
  (~ present rt p -> Find W ConvertPeerID makeLimit rt p = Done EmptyString).

End Statements.

(** ** A table of four-bit keys

    The scenarios of section 8 use four-bit keys; here a peer id is the
    string of its four bits. *)

(** The number a string of binary digits spells. *)
Fixpoint bitsOf (s : string) (acc : N) : N :=
  match s with
  | EmptyString => acc
  | String c s' => bitsOf s' (2 * acc + (if Ascii.eqb c "1"%char then 1 else 0))%N
  end.

(** A conversion of ids to four-bit keys. *)
Definition key4 (s : peerID) : ID := (bitsOf s 0 mod 16)%N.

(** A clock reading in the year 2020 and a metrics store that reports no latency. *)
Definition env2020 : Env :=
  {| now := 63713433600000000000%Z; LatencyEWMA := fun _ => 0%Z |}.

(** A metrics store that reports a latency above the tables' limit. *)
Definition envSlow : Env :=
  {| now := 63713433600000000000%Z; LatencyEWMA := fun _ => 200%Z |}.

(** A runtime whose [make] grants up to 2^32 entries. *)
Definition limit32 : Z := 2 ^ 32.

(** One hour, in nanoseconds. *)
Definition hour : float := 3600000000000%float.

(** A table of local key [0000], maximal latency 100 and refresh interval 3000. *)
Definition table4 (k : Z) (threshold : float) (bs : list bucket) : RoutingTable :=
  {| local := 0%N;
     maxLatency := 100%Z;
     buckets := bs;
     bucketsize := k;
     maxLastSuccessfulOutboundThreshold := threshold;
     rtRefreshInterval := 3000%Z |}.

(** The record of a peer queried in 2020. *)
Definition queried (p : peerID) : peerInfo :=
  {| Id := p; lastSuccessfulOutboundQuery := now env2020; dhtId := key4 p |}.

(** The record of a peer never queried. *)
Definition unqueried (p : peerID) : peerInfo :=
  {| Id := p; lastSuccessfulOutboundQuery := zeroTime; dhtId := key4 p |}.

(** [1000] and [0100] in the only bucket of a table of bucket size two. *)
Definition pair_table : RoutingTable :=
  table4 2 hour [[queried "0100"%string; queried "1000"%string]].

(** Bucket size one: [0100] was added, then [0010], which unfolded the table twice. *)
Definition chain_table : RoutingTable :=
  table4 1 hour [[]; [queried "0100"%string]; [queried "0010"%string]].

(** Bucket size two: a peer never queried and one queried fill the bucket. *)
Definition full_table : RoutingTable :=
  table4 2 hour [[queried "1100"%string; unqueried "1000"%string]].

(** The table [pair_table] unfolded once: [0100] shares one bit with the
    local key and moves to the new bucket. *)
Definition unfolded_pair_table : RoutingTable :=
  table4 2 hour [[queried "1000"%string]; [queried "0100"%string]].

(** A tick of the liveness loop at which every ping fails and no peer is
    connected. *)
Definition all_gone (i : nat) : Liveness :=
  {| clock := now env2020; pingFails := true; connected := false |}.

(** ** Lists, slices and outcomes *)

Section Properties.

Variable W : nat.
Variable ConvertPeerID : peerID -> ID.
Variable makeLimit : Z.

Local Abbreviation CommonPrefixLen := (CommonPrefixLen W).
Local Abbreviation fits := (fits W).
Local Abbreviation split := (split W).
Local Abbreviation bucketIdForPeer := (bucketIdForPeer W ConvertPeerID).
Local Abbreviation nextBucket := (nextBucket W).
Local Abbreviation entry := (entry ConvertPeerID).
Local Abbreviation addPeer := (addPeer W ConvertPeerID).
Local Abbreviation TryAddPeer := (TryAddPeer W ConvertPeerID).
Local Abbreviation removePeer := (removePeer W ConvertPeerID).
Local Abbreviation RemovePeer := (RemovePeer W ConvertPeerID).
Local Abbreviation UpdateLastSuccessfulOutboundQuery :=
  (UpdateLastSuccessfulOutboundQuery W ConvertPeerID).
Local Abbreviation NearestPeers := (NearestPeers W makeLimit).
Local Abbreviation Find := (Find W ConvertPeerID makeLimit).
Local Abbreviation NearestPeer := (NearestPeer W makeLimit).
Local Abbreviation visit := (visit W ConvertPeerID).
Local Abbreviation visits := (visits W ConvertPeerID).
Local Abbreviation background := (background W ConvertPeerID).
Local Abbreviation assigned := (assigned W).
Local Abbreviation keyed := (keyed ConvertPeerID).
Local Abbreviation reachable := (reachable W ConvertPeerID).
Local Abbreviation pushed := (pushed W ConvertPeerID).
Local Abbreviation well_formed := (well_formed W ConvertPeerID).
Local Abbreviation distances := (distances ConvertPeerID).

Lemma store_length {A : Type} (s : list A) (i : nat) (a : A) :
  List.length (store s i a) = List.length s.
Proof.
  revert i; induction s as [|x s IH]; intros [|i]; simpl; auto.
Qed.

Lemma nth_error_store_same {A : Type} (s : list A) (i : nat) (a : A) :
  (i < List.length s)%nat -> nth_error (store s i a) i = Some a.
Proof.
  revert i; induction s as [|x s IH]; intros [|i] Hi; simpl in *; try lia; auto.
  apply IH; lia.
Qed.

Lemma nth_error_store_other {A : Type} (s : list A) (i j : nat) (a : A) :
  i <> j -> nth_error (store s i a) j = nth_error s j.
Proof.
  revert i j; induction s as [|x s IH]; intros [|i] [|j] Hij; simpl; auto;
    try congruence.
Qed.

Lemma nth_error_store {A : Type} (s : list A) (i j : nat) (a b : A) :
  nth_error (store s i a) j = Some b ->
  (j = i /\ b = a /\ (i < List.length s)%nat) \/ (j <> i /\ nth_error s j = Some b).
Proof.
  intros H. destruct (Nat.eq_dec j i) as [->|Hne].
  - left. assert (Hi : (i < List.length s)%nat).
    { rewrite <- (store_length s i a). apply nth_error_Some. congruence. }
    rewrite nth_error_store_same in H by exact Hi. intuition congruence.
  - right. rewrite nth_error_store_other in H by congruence. auto.
Qed.

Lemma index_last {A : Type} (s : list A) :
  s <> [] -> exists a, index s (List.length s - 1) = Done a.
Proof.
  intros Hs. unfold index.
  destruct (nth_error s (List.length s - 1)) eqn:E; eauto.
  apply nth_error_None in E. destruct s; simpl in *; [congruence | lia].
Qed.

(** ** Keys: bit length and XOR *)

Lemma bitlen_log2 (x : N) : x <> 0%N -> bitlen x = S (N.to_nat (N.log2 x)).
Proof.
  intros H. unfold bitlen. rewrite N.size_log2 by exact H. lia.
Qed.

Lemma bitlen_lt (a b : N) : (bitlen a < bitlen b)%nat -> (a < b)%N.
Proof.
  intros H. destruct (N.eq_dec b 0) as [->|Hb].
  - cbn in H. lia.
  - destruct (N.eq_dec a 0) as [->|Ha]; [lia|].
    rewrite (bitlen_log2 a), (bitlen_log2 b) in H by assumption.
    apply N.log2_lt_cancel. lia.
Qed.

Lemma bitlen_lxor_le (a b : N) : (bitlen (N.lxor a b) <= Nat.max (bitlen a) (bitlen b))%nat.
Proof.
  destruct (N.eq_dec a 0) as [->|Ha]; [rewrite N.lxor_0_l; lia|].
  destruct (N.eq_dec b 0) as [->|Hb]; [rewrite N.lxor_0_r; lia|].
  destruct (N.eq_dec (N.lxor a b) 0) as [E|Hx].
  - rewrite E. cbn. lia.
  - rewrite !bitlen_log2 by assumption.
    pose proof (N.log2_lxor a b). lia.
Qed.

Lemma bitlen_lxor_lt (a b : N) : (bitlen a < bitlen b)%nat -> bitlen (N.lxor a b) = bitlen b.
Proof.
  intros H.
  assert (Hb : b <> 0%N) by (intros ->; cbn in H; lia).
  assert (Hbit : N.testbit (N.lxor a b) (N.log2 b) = true).
  { rewrite N.lxor_spec, (N.bit_log2 b Hb).
    destruct (N.eq_dec a 0) as [->|Ha]; [now rewrite N.bits_0|].
    rewrite N.bits_above_log2; [reflexivity|].
    rewrite (bitlen_log2 a), (bitlen_log2 b) in H by assumption. lia. }
  assert (Hx : N.lxor a b <> 0%N).
  { intros E. rewrite E, N.bits_0 in Hbit. discriminate. }
  rewrite (bitlen_log2 _ Hx), (bitlen_log2 _ Hb). f_equal. f_equal.
  apply N.log2_bits_unique; [exact Hbit|].
  intros m Hm. rewrite N.lxor_spec.
  rewrite (N.bits_above_log2 b m) by exact Hm.
  destruct (N.eq_dec a 0) as [->|Ha]; [now rewrite N.bits_0|].
  rewrite N.bits_above_log2; [reflexivity|].
  rewrite (bitlen_log2 a), (bitlen_log2 b) in H by assumption. lia.
Qed.

Lemma bitlen_lxor_eq (a b : N) :
  bitlen a = bitlen b -> (0 < bitlen a)%nat -> (bitlen (N.lxor a b) < bitlen a)%nat.
Proof.
  intros H Hpos.
  assert (Ha : a <> 0%N) by (intros ->; cbn in Hpos; lia).
  assert (Hb : b <> 0%N) by (intros ->; cbn in H; lia).
  destruct (N.eq_dec (N.lxor a b) 0) as [E|Hx]; [rewrite E; cbn; lia|].
  rewrite (bitlen_log2 a), (bitlen_log2 b) in H by assumption.
  assert (Hl : N.log2 a = N.log2 b) by lia.
  rewrite (bitlen_log2 _ Hx), (bitlen_log2 _ Ha).
  pose proof (N.log2_lxor a b) as Hle.
  assert (Hne : N.log2 (N.lxor a b) <> N.log2 a).
  { intros E. pose proof (N.bit_log2 _ Hx) as Hbit.
    rewrite E, N.lxor_spec, (N.bit_log2 a Ha), Hl, (N.bit_log2 b Hb) in Hbit.
    discriminate. }
  lia.
Qed.

Lemma bitlen_bound (x : N) (w : nat) : (x < 2 ^ N.of_nat w)%N -> (bitlen x <= w)%nat.
Proof.
  intros H. destruct (N.eq_dec x 0) as [->|Hx]; [cbn; lia|].
  rewrite (bitlen_log2 _ Hx).
  apply N.log2_lt_pow2 in H; lia.
Qed.

Lemma lxor_cancel (x y l : N) : N.lxor (N.lxor x l) (N.lxor y l) = N.lxor x y.
Proof.
  rewrite N.lxor_assoc, (N.lxor_comm l), N.lxor_assoc, N.lxor_nilpotent, N.lxor_0_r.
  reflexivity.
Qed.

(** ** Buckets *)

Lemma remove_found (b : bucket) (p : peerID) (b' : bucket) :
  remove b p = (b', true) ->
  List.length b = S (List.length b') /\ incl b' b /\ exists r, In r b /\ Id r = p.
Proof.
  revert b'; induction b as [|r b IH]; intros b' H; simpl in H; [discriminate|].
  destruct (String.eqb (Id r) p) eqn:E.
  - inversion H; subst. apply String.eqb_eq in E.
    repeat split; [apply incl_tl, incl_refl | exists r; simpl; auto].
  - destruct (remove b p) as [b'' found] eqn:R. inversion H; subst.
    destruct (IH b'' eq_refl) as (Hl & Hi & r0 & Hr0 & Hid).
    repeat split; simpl.
    + now rewrite Hl.
    + intros x [->|Hx]; simpl; auto.
    + exists r0; simpl; auto.
Qed.

Lemma remove_pushFront (r : peerInfo) (b : bucket) :
  remove (pushFront r b) (Id r) = (b, true).
Proof.
  unfold pushFront; simpl. now rewrite String.eqb_refl.
Qed.

Lemma sweep_Some (thr : float) (now : Time) (l : list peerInfo) (b b' : bucket) :
  sweep thr now l b = Some b' ->
  exists pc, In pc l /\ stale thr now pc = true /\ remove b (Id pc) = (b', true).
Proof.
  induction l as [|pc l IH]; simpl; [discriminate|].
  destruct (stale thr now pc) eqn:E.
  - destruct (remove b (Id pc)) as [b1 [|]] eqn:R.
    + intros H; inversion H; subst. exists pc; auto.
    + intros H. destruct (IH H) as (pc' & ? & ? & ?). exists pc'; auto.
  - intros H. destruct (IH H) as (pc' & ? & ? & ?). exists pc'; auto.
Qed.

(** ** The table: frame lemmas *)

Lemma set_buckets_same (rt : RoutingTable) : set_buckets rt (buckets rt) = rt.
Proof. destruct rt; reflexivity. Qed.

Lemma In_store {A : Type} (s : list A) (i : nat) (a x : A) :
  In x (store s i a) -> x = a \/ In x s.
Proof.
  revert i; induction s as [|y s IH]; intros [|i]; simpl; intuition.
  destruct (IH i H0); auto.
Qed.

Lemma bucketIdForPeer_min (rt : RoutingTable) (p : peerID) :
  bucketIdForPeer rt p
  = Nat.min (CommonPrefixLen (ConvertPeerID p) (local rt)) (List.length (buckets rt) - 1).
Proof.
  unfold bucketIdForPeer.
  destruct (Nat.leb_spec (List.length (buckets rt))
              (CommonPrefixLen (ConvertPeerID p) (local rt))); lia.
Qed.

Lemma bucketIdForPeer_set_buckets (rt : RoutingTable) (bs : list bucket) (p : peerID) :
  List.length bs = List.length (buckets rt) ->
  bucketIdForPeer (set_buckets rt bs) p = bucketIdForPeer rt p.
Proof.
  intros H. rewrite !bucketIdForPeer_min. simpl. now rewrite H.
Qed.

Lemma splitLast_inv (sp : nat -> ID -> bucket -> bucket * bucket)
    (rt rt' : RoutingTable) (nb : bucket) :
  splitLast sp rt = Done (rt', nb) ->
  exists b,
    nth_error (buckets rt) (List.length (buckets rt) - 1) = Some b /\
    nb = snd (sp (List.length (buckets rt) - 1)%nat (local rt) b) /\
    rt' = set_buckets rt
            (store (buckets rt) (List.length (buckets rt) - 1)
               (fst (sp (List.length (buckets rt) - 1)%nat (local rt) b)) ++ [nb]).
Proof.
  unfold splitLast, index. intros H.
  destruct (nth_error (buckets rt) (List.length (buckets rt) - 1)) as [b|] eqn:E;
    simpl in H; [|discriminate].
  destruct (sp (List.length (buckets rt) - 1)%nat (local rt) b) as [kept moved] eqn:S.
  inversion H; subst. exists b. rewrite S. auto.
Qed.

Lemma splitLast_length (sp : nat -> ID -> bucket -> bucket * bucket)
    (rt rt' : RoutingTable) (nb : bucket) :
  splitLast sp rt = Done (rt', nb) ->
  List.length (buckets rt') = S (List.length (buckets rt)) /\ buckets rt <> [].
Proof.
  intros H. apply splitLast_inv in H as (b & Hb & _ & ->). simpl.
  rewrite length_app, store_length. simpl. split; [lia|].
  intros E. rewrite E in Hb. discriminate.
Qed.

(** An invariant of the split carries over to the cascade. *)
Lemma nextBucket_preserves (P : RoutingTable -> Prop) :
  (forall rt rt' nb, P rt -> splitLast split rt = Done (rt', nb) -> P rt') ->
  forall fuel rt rt', P rt -> nextBucket fuel rt = Done rt' -> P rt'.
Proof.
  intros Hstep. induction fuel as [|fuel IH]; intros rt rt' HP H; simpl in H.
  - discriminate.
  - destruct (splitLast split rt) as [[rt1 nb]| |] eqn:E; simpl in H; try discriminate.
    specialize (Hstep _ _ _ HP E).
    destruct (bucketsize rt1 <=? len nb)%Z.
    + exact (IH rt1 rt' Hstep H).
    + inversion H; subst; auto.
Qed.

Lemma nth_error_snoc {A : Type} (l : list A) (a : A) :
  nth_error (l ++ [a]) (List.length l) = Some a.
Proof.
  rewrite nth_error_app2 by lia. now rewrite Nat.sub_diag.
Qed.

Lemma splitLast_last (rt rt' : RoutingTable) (nb : bucket) :
  splitLast split rt = Done (rt', nb) -> lastBucket rt' = Some nb.
Proof.
  intros H. apply splitLast_inv in H as (b & Hb & _ & ->).
  unfold lastBucket. cbn [buckets set_buckets].
  rewrite length_app. cbn [List.length].
  rewrite Nat.add_sub. apply nth_error_snoc.
Qed.

(** When the cascade returns, the last bucket is not full. *)
Lemma nextBucket_last (fuel : nat) (rt rt' : RoutingTable) :
  nextBucket fuel rt = Done rt' ->
  exists b, lastBucket rt' = Some b /\ (len b < bucketsize rt')%Z.
Proof.
  revert rt; induction fuel as [|fuel IH]; intros rt H; simpl in H; [discriminate|].
  destruct (splitLast split rt) as [[rt1 nb]| |] eqn:E; simpl in H; try discriminate.
  destruct (Z.leb_spec (bucketsize rt1) (len nb)).
  - eauto.
  - inversion H; subst. exists nb. split; [eapply splitLast_last; eauto | lia].
Qed.

Lemma nextBucket_set_buckets (fuel : nat) (rt rt' : RoutingTable) :
  nextBucket fuel rt = Done rt' -> exists bs, rt' = set_buckets rt bs.
Proof.
  apply (nextBucket_preserves (fun r => exists bs, r = set_buckets rt bs)).
  - intros r r' nb [bs ->] H. apply splitLast_inv in H as (b & _ & _ & ->).
    eexists. reflexivity.
  - exists (buckets rt). now rewrite set_buckets_same.
Qed.

(** ** [addPeer]: what a call that returns has done *)

Lemma evict_cases (e : Env) (rt : RoutingTable) (p : peerID) (queryPeer : bool)
    (b : bucket) (rt' : RoutingTable) (evs : list event) (res : bool * option error) :
  nth_error (buckets rt) (bucketIdForPeer rt p) = Some b ->
  (bucketsize rt <= len b)%Z ->
  evict e rt (bucketIdForPeer rt p) b (entry e p queryPeer) = (rt', evs, res) ->
  (rt' = rt /\ evs = [] /\ res = (false, Some ErrPeerRejectedNoCapacity)) \/
  (exists b', pushed e rt p queryPeer b b' rt' /\
              evs = [PeerAdded p] /\ res = (true, None)).
Proof.
  intros Hb Hfull. unfold evict, pushNew.
  destruct (sweep _ _ _ _) as [b'|] eqn:S; intros H; injection H as <- <- <-; auto.
  right. exists b'. unfold pushed. auto 10.
Qed.

Lemma addPeer_cases (fuel : nat) (e : Env) (rt : RoutingTable) (p : peerID)
    (queryPeer : bool) (rt' : RoutingTable) (evs : list event) (res : bool * option error) :
  addPeer fuel e rt p queryPeer = Done (rt', evs, res) ->
  exists rtX,
    (rtX = rt \/ nextBucket fuel rt = Done rtX) /\
    ((rt' = rtX /\ evs = [] /\ fst res = false) \/
     (exists b b', pushed e rtX p queryPeer b b' rt' /\
                   evs = [PeerAdded p] /\ res = (true, None))).
Proof.
  unfold addPeer, index.
  destruct (nth_error (buckets rt) (bucketIdForPeer rt p)) as [b|] eqn:Hb;
    simpl; [|discriminate].
  destruct (getPeer b p) as [r|] eqn:Hg.
  { intros H; injection H as <- <- <-. exists rt. auto. }
  destruct (Z.ltb_spec (maxLatency rt) (LatencyEWMA e p)) as [Hlat|Hlat].
  { intros H; injection H as <- <- <-. exists rt. auto. }
  destruct (Z.ltb_spec (len b) (bucketsize rt)) as [Hroom|Hfull].
  { unfold pushNew. intros H; injection H as <- <- <-. exists rt. split; auto.
    right. exists b, b. unfold pushed. auto 10. }
  destruct (bucketIdForPeer rt p =? List.length (buckets rt) - 1)%nat.
  - destruct (nextBucket fuel rt) as [rt1| |] eqn:Hn; simpl; try discriminate.
    destruct (nth_error (buckets rt1) (bucketIdForPeer rt1 p)) as [b1|] eqn:Hb1;
      simpl; [|discriminate].
    destruct (Z.ltb_spec (len b1) (bucketsize rt1)) as [Hroom1|Hfull1].
    + unfold pushNew. intros H; injection H as <- <- <-. exists rt1. split; auto.
      right. exists b1, b1. unfold pushed. auto 10.
    + intros H. injection H as H. exists rt1. split; auto.
      destruct (evict_cases _ _ _ _ _ _ _ _ Hb1 Hfull1 H) as [(-> & -> & ->)|(b' & ?)]; eauto.
  - intros H. injection H as H. exists rt. split; auto.
    destruct (evict_cases _ _ _ _ _ _ _ _ Hb Hfull H) as [(-> & -> & ->)|(b' & ?)]; eauto.
Qed.

(** ** Invariants: what keeps them *)

Lemma assigned_store (rt : RoutingTable) (i : nat) (b' : bucket) :
  assigned rt ->
  (forall r, In r b' ->
     i = Nat.min (CommonPrefixLen (dhtId r) (local rt)) (List.length (buckets rt) - 1)) ->
  assigned (set_buckets rt (store (buckets rt) i b')).
Proof.
  intros Ha Hb' j b r Hj Hr. cbn [buckets set_buckets local] in *.
  rewrite store_length.
  apply nth_error_store in Hj as [(-> & -> & _)|[_ Hj]]; eauto.
Qed.

Lemma keyed_store (rt : RoutingTable) (i : nat) (b' : bucket) :
  keyed rt ->
  (forall r, In r b' -> dhtId r = ConvertPeerID (Id r)) ->
  keyed (set_buckets rt (store (buckets rt) i b')).
Proof.
  intros Hk Hb' b r Hb Hr. cbn [buckets set_buckets] in Hb.
  apply In_store in Hb as [->|Hb]; eauto.
Qed.

Lemma within_capacity_store (rt : RoutingTable) (i : nat) (b' : bucket) :
  within_capacity rt ->
  (len b' <= bucketsize rt)%Z ->
  within_capacity (set_buckets rt (store (buckets rt) i b')).
Proof.
  intros Hc Hb' b Hb. cbn [buckets set_buckets bucketsize] in *.
  apply In_store in Hb as [->|Hb]; auto.
Qed.

(** The split keeps the assignment: the records of common prefix length
    [d] stay in bucket [d], the others are in the new bucket [d+1]. *)
Lemma splitLast_assigned (rt rt' : RoutingTable) (nb : bucket) :
  assigned rt -> splitLast split rt = Done (rt', nb) -> assigned rt'.
Proof.
  intros Ha H. pose proof (splitLast_length _ _ _ _ H) as [Hlen Hne].
  apply splitLast_inv in H as (b & Hb & -> & ->).
  intros i b' r Hi Hr. cbn [buckets set_buckets local] in *.
  rewrite length_app, store_length. cbn [List.length].
  set (d := (List.length (buckets rt) - 1)%nat) in *.
  assert (Hm : List.length (buckets rt) = S d).
  { destruct (buckets rt); [congruence | simpl in *; lia]. }
  destruct (Nat.lt_ge_cases i (List.length (buckets rt))) as [Hlt|Hge].
  - rewrite nth_error_app1 in Hi by (rewrite store_length; exact Hlt).
    apply nth_error_store in Hi as [(-> & -> & _)|[Hne' Hi]].
    + cbn [fst split] in Hr. apply filter_In in Hr as [Hr Hc].
      pose proof (Ha _ _ _ Hb Hr).
      apply negb_true_iff, Nat.ltb_ge in Hc. lia.
    + pose proof (Ha _ _ _ Hi Hr). lia.
  - rewrite nth_error_app2 in Hi by (rewrite store_length; exact Hge).
    rewrite store_length in Hi.
    destruct (i - List.length (buckets rt))%nat as [|n] eqn:E.
    + cbn in Hi. injection Hi as <-. cbn [snd split] in Hr.
      apply filter_In in Hr as [Hr Hc]. apply Nat.ltb_lt in Hc. lia.
    + cbn in Hi. destruct n; discriminate.
Qed.

Lemma nextBucket_assigned (fuel : nat) (rt rt' : RoutingTable) :
  assigned rt -> nextBucket fuel rt = Done rt' -> assigned rt'.
Proof.
  apply (nextBucket_preserves assigned). intros; eapply splitLast_assigned; eauto.
Qed.

Lemma splitLast_keyed (rt rt' : RoutingTable) (nb : bucket) :
  keyed rt -> splitLast split rt = Done (rt', nb) -> keyed rt'.
Proof.
  intros Hk H. apply splitLast_inv in H as (b & Hb & -> & ->).
  apply nth_error_In in Hb.
  intros b' r Hb' Hr. cbn [buckets set_buckets] in Hb'.
  apply in_app_or in Hb' as [Hb'|[<-|[]]].
  - apply In_store in Hb' as [->|Hb']; eauto.
    cbn [fst split] in Hr. apply filter_In in Hr as [Hr _]. eauto.
  - cbn [snd split] in Hr. apply filter_In in Hr as [Hr _]. eauto.
Qed.

Lemma nextBucket_keyed (fuel : nat) (rt rt' : RoutingTable) :
  keyed rt -> nextBucket fuel rt = Done rt' -> keyed rt'.
Proof.
  apply (nextBucket_preserves keyed). intros; eapply splitLast_keyed; eauto.
Qed.

Lemma filter_length_le {A : Type} (f : A -> bool) (l : list A) :
  (List.length (filter f l) <= List.length l)%nat.
Proof.
  induction l as [|x l IH]; simpl; auto. destruct (f x); simpl; lia.
Qed.

Lemma splitLast_within_capacity (rt rt' : RoutingTable) (nb : bucket) :
  within_capacity rt -> splitLast split rt = Done (rt', nb) -> within_capacity rt'.
Proof.
  intros Hc H. apply splitLast_inv in H as (b & Hb & -> & ->).
  apply nth_error_In in Hb. specialize (Hc _ Hb) as Hlen.
  intros b' Hb'. cbn [buckets set_buckets bucketsize] in *.
  apply in_app_or in Hb' as [Hb'|[<-|[]]].
  - apply In_store in Hb' as [->|Hb']; auto.
    cbn [fst split]. unfold len in *.
    pose proof (filter_length_le
      (fun r => negb (List.length (buckets rt) - 1 <? CommonPrefixLen (dhtId r) (local rt))%nat) b).
    lia.
  - cbn [snd split]. unfold len in *.
    pose proof (filter_length_le
      (fun r => (List.length (buckets rt) - 1 <? CommonPrefixLen (dhtId r) (local rt))%nat) b).
    lia.
Qed.

Lemma nextBucket_within_capacity (fuel : nat) (rt rt' : RoutingTable) :
  within_capacity rt -> nextBucket fuel rt = Done rt' -> within_capacity rt'.
Proof.
  apply (nextBucket_preserves within_capacity).
  intros; eapply splitLast_within_capacity; eauto.
Qed.

Lemma nextBucket_nonempty (fuel : nat) (rt rt' : RoutingTable) :
  nextBucket fuel rt = Done rt' -> buckets rt' <> [].
Proof.
  intros H. destruct (nextBucket_last _ _ _ H) as (b & Hb & _).
  unfold lastBucket in Hb. intros E. rewrite E in Hb. discriminate.
Qed.

(** ** Invariants of the reachable states *)

Lemma pushed_sub (e : Env) (rt : RoutingTable) (p : peerID) (queryPeer : bool)
    (b b' : bucket) (rt' : RoutingTable) :
  pushed e rt p queryPeer b b' rt' ->
  incl b' b /\ (List.length b' <= List.length b)%nat /\
  (len (pushFront (entry e p queryPeer) b') <= Z.max (len b + 1) (bucketsize rt))%Z /\
  ((bucketsize rt <= len b)%Z -> len (pushFront (entry e p queryPeer) b') = len b).
Proof.
  intros (Hb & [[-> Hroom]|[Hfull Hs]] & _); unfold len, pushFront; cbn [List.length].
  - repeat split; [apply incl_refl | lia | lia | unfold len in *; lia].
  - apply sweep_Some in Hs as (pc & _ & _ & Hr).
    apply remove_found in Hr as (Hl & Hi & _).
    repeat split; [exact Hi | lia | lia | lia].
Qed.

Lemma pushed_well_formed (e : Env) (rt : RoutingTable) (p : peerID) (queryPeer : bool)
    (b b' : bucket) (rt' : RoutingTable) :
  well_formed rt -> pushed e rt p queryPeer b b' rt' -> well_formed rt'.
Proof.
  intros (Hne & Ha & Hk) Hp.
  destruct (pushed_sub _ _ _ _ _ _ _ Hp) as (Hi & _).
  destruct Hp as (Hb & _ & ->).
  split; [|split].
  - cbn [buckets set_buckets]. intros E.
    apply (f_equal (@List.length _)) in E. rewrite store_length in E.
    destruct (buckets rt); [congruence | discriminate].
  - apply assigned_store; auto.
    intros r [<-|Hr].
    + unfold entry; cbn [dhtId]. apply bucketIdForPeer_min.
    + rewrite bucketIdForPeer_min. rewrite <- bucketIdForPeer_min.
      exact (Ha _ _ _ Hb (Hi _ Hr)).
  - apply keyed_store; auto.
    intros r [<-|Hr]; [reflexivity|].
    apply nth_error_In in Hb. eauto.
Qed.

Lemma pushed_within_capacity (e : Env) (rt : RoutingTable) (p : peerID) (queryPeer : bool)
    (b b' : bucket) (rt' : RoutingTable) :
  within_capacity rt -> pushed e rt p queryPeer b b' rt' -> within_capacity rt'.
Proof.
  intros Hc Hp. destruct (pushed_sub _ _ _ _ _ _ _ Hp) as (_ & _ & Hmax & Hsame).
  destruct Hp as (Hb & Hor & ->).
  apply within_capacity_store; auto.
  pose proof (Hc _ (nth_error_In _ _ Hb)).
  destruct Hor as [[-> Hroom]|[Hfull _]].
  - unfold len, pushFront in *. cbn [List.length]. lia.
  - rewrite (Hsame Hfull). assumption.
Qed.

Lemma addPeer_well_formed (fuel : nat) (e : Env) (rt : RoutingTable) (p : peerID)
    (queryPeer : bool) (rt' : RoutingTable) (evs : list event) (res : bool * option error) :
  well_formed rt -> addPeer fuel e rt p queryPeer = Done (rt', evs, res) ->
  well_formed rt'.
Proof.
  intros Hwf H. apply addPeer_cases in H as (rtX & HX & Hor).
  assert (HwfX : well_formed rtX).
  { destruct HX as [->|Hn]; auto. destruct Hwf as (Hne & Ha & Hk).
    split; [|split].
    - eapply nextBucket_nonempty; eauto.
    - eapply nextBucket_assigned; eauto.
    - eapply nextBucket_keyed; eauto. }
  destruct Hor as [(-> & _)|(b & b' & Hp & _)]; auto.
  eapply pushed_well_formed; eauto.
Qed.

Lemma addPeer_within_capacity (fuel : nat) (e : Env) (rt : RoutingTable) (p : peerID)
    (queryPeer : bool) (rt' : RoutingTable) (evs : list event) (res : bool * option error) :
  within_capacity rt -> addPeer fuel e rt p queryPeer = Done (rt', evs, res) ->
  within_capacity rt'.
Proof.
  intros Hc H. apply addPeer_cases in H as (rtX & HX & Hor).
  assert (HcX : within_capacity rtX).
  { destruct HX as [->|Hn]; auto. eapply nextBucket_within_capacity; eauto. }
  destruct Hor as [(-> & _)|(b & b' & Hp & _)]; auto.
  eapply pushed_within_capacity; eauto.
Qed.

Lemma addPeer_set_buckets (fuel : nat) (e : Env) (rt : RoutingTable) (p : peerID)
    (queryPeer : bool) (rt' : RoutingTable) (evs : list event) (res : bool * option error) :
  addPeer fuel e rt p queryPeer = Done (rt', evs, res) ->
  exists bs, rt' = set_buckets rt bs.
Proof.
  intros H. apply addPeer_cases in H as (rtX & HX & Hor).
  assert (HfX : exists bs, rtX = set_buckets rt bs).
  { destruct HX as [->|Hn].
    - exists (buckets rt). now rewrite set_buckets_same.
    - eapply nextBucket_set_buckets; eauto. }
  destruct HfX as [bs ->].
  destruct Hor as [(-> & _)|(b & b' & (_ & _ & ->) & _)]; eexists; reflexivity.
Qed.

Lemma removePeer_cases (rt : RoutingTable) (p : peerID) (rt' : RoutingTable)
    (evs : list event) :
  removePeer rt p = Done (rt', evs) ->
  (rt' = rt /\ evs = []) \/
  (exists b b',
     nth_error (buckets rt) (bucketIdForPeer rt p) = Some b /\
     remove b p = (b', true) /\
     rt' = set_buckets rt (store (buckets rt) (bucketIdForPeer rt p) b') /\
     evs = [PeerRemoved p]).
Proof.
  unfold removePeer, index.
  destruct (nth_error (buckets rt) (bucketIdForPeer rt p)) as [b|] eqn:Hb;
    simpl; [|discriminate].
  destruct (remove b p) as [b' [|]] eqn:Hr; intros H; injection H as <- <-; auto.
  right. exists b, b'. auto.
Qed.

Lemma shrunk_well_formed (rt : RoutingTable) (i : nat) (b b' : bucket) :
  well_formed rt ->
  nth_error (buckets rt) i = Some b ->
  (forall r', In r' b' -> exists r, In r b /\ dhtId r' = dhtId r /\ Id r' = Id r) ->
  well_formed (set_buckets rt (store (buckets rt) i b')).
Proof.
  intros (Hne & Ha & Hk) Hb Hsub. split; [|split].
  - cbn [buckets set_buckets]. intros E.
    apply (f_equal (@List.length _)) in E. rewrite store_length in E.
    destruct (buckets rt); [congruence | discriminate].
  - apply assigned_store; auto.
    intros r' Hr'. destruct (Hsub _ Hr') as (r & Hr & -> & _). eauto.
  - apply keyed_store; auto.
    intros r' Hr'. destruct (Hsub _ Hr') as (r & Hr & -> & ->).
    apply nth_error_In in Hb. eauto.
Qed.

Lemma removePeer_well_formed (rt : RoutingTable) (p : peerID) (rt' : RoutingTable)
    (evs : list event) :
  well_formed rt -> removePeer rt p = Done (rt', evs) -> well_formed rt'.
Proof.
  intros Hwf H.
  apply removePeer_cases in H as [[-> _]|(b & b' & Hb & Hr & -> & _)]; auto.
  apply remove_found in Hr as (_ & Hi & _).
  eapply shrunk_well_formed; eauto.
Qed.

Lemma removePeer_within_capacity (rt : RoutingTable) (p : peerID) (rt' : RoutingTable)
    (evs : list event) :
  within_capacity rt -> removePeer rt p = Done (rt', evs) -> within_capacity rt'.
Proof.
  intros Hc H.
  apply removePeer_cases in H as [[-> _]|(b & b' & Hb & Hr & -> & _)]; auto.
  apply remove_found in Hr as (Hl & _).
  apply within_capacity_store; auto.
  pose proof (Hc _ (nth_error_In _ _ Hb)). unfold len in *. lia.
Qed.

Lemma setLastSuccessfulOutboundQuery_spec (b : bucket) (p : peerID) (t : Time) :
  List.length (setLastSuccessfulOutboundQuery b p t) = List.length b /\
  forall r', In r' (setLastSuccessfulOutboundQuery b p t) ->
             exists r, In r b /\ dhtId r' = dhtId r /\ Id r' = Id r.
Proof.
  induction b as [|r b [IHl IHi]]; simpl; [split; [reflexivity | intros ? []]|].
  destruct (String.eqb (Id r) p); simpl; (split; [auto|]).
  - intros r' [<-|Hr']; [exists r | exists r']; simpl; auto.
  - intros r' [E|Hr']; [exists r; subst; simpl; auto|].
    destruct (IHi _ Hr') as (r0 & ? & ? & ?). exists r0; simpl; auto.
Qed.

Lemma Update_cases (rt : RoutingTable) (p : peerID) (t : Time) (rt' : RoutingTable)
    (ok : bool) :
  UpdateLastSuccessfulOutboundQuery rt p t = Done (rt', ok) ->
  (rt' = rt /\ ok = false) \/
  (exists b,
     nth_error (buckets rt) (bucketIdForPeer rt p) = Some b /\
     rt' = set_buckets rt (store (buckets rt) (bucketIdForPeer rt p)
                             (setLastSuccessfulOutboundQuery b p t)) /\
     ok = true).
Proof.
  unfold UpdateLastSuccessfulOutboundQuery, index.
  destruct (nth_error (buckets rt) (bucketIdForPeer rt p)) as [b|] eqn:Hb;
    simpl; [|discriminate].
  destruct (getPeer b p); intros H; injection H as <- <-; auto.
  right. exists b. auto.
Qed.

Lemma visit_cases (rt : RoutingTable) (lv : Liveness) (ps : peerInfo)
    (rt' : RoutingTable) (evs : list event) :
  visit rt lv ps = Done (rt', evs) ->
  (rt' = rt /\ evs = []) \/
  (pingFails lv = true /\ connected lv = false /\
   removePeer rt (Id ps) = Done (rt', evs)).
Proof.
  unfold visit.
  destruct (_ <? _)%Z; [|intros H; injection H as <- <-; auto].
  destruct (pingFails lv); [|intros H; injection H as <- <-; auto].
  destruct (connected lv); simpl; [intros H; injection H as <- <-; auto|].
  auto.
Qed.

Lemma reachable_well_formed (rt : RoutingTable) : reachable rt -> well_formed rt.
Proof.
  induction 1 as [k l lat thr int ping conn rt Hnew
                 | rt fuel e p q rt' evs res _ IH H
                 | rt p rt' evs _ IH H
                 | rt p t rt' ok _ IH H
                 | rt lv ps rt' evs _ IH H].
  - unfold NewRoutingTable in Hnew. destruct ping as [pf|], conn as [cf|]; try discriminate.
    injection Hnew as <-. split; [|split].
    + discriminate.
    + intros i b0 r0 Hb Hr. cbn [buckets] in Hb.
      destruct i as [|[|i]]; cbn in Hb; try discriminate.
      injection Hb as <-. destruct Hr.
    + intros b0 r0 [E|[]] Hr0. rewrite <- E in Hr0. destruct Hr0.
  - eapply addPeer_well_formed; eauto.
  - eapply removePeer_well_formed; eauto.
  - apply Update_cases in H as [[-> _]|(b & Hb & -> & _)]; auto.
    eapply shrunk_well_formed; eauto.
    apply setLastSuccessfulOutboundQuery_spec.
  - apply visit_cases in H as [[-> _]|(_ & _ & H)]; auto.
    eapply removePeer_well_formed; eauto.
Qed.

(** ** The unfold cascade: when it returns *)

Lemma CommonPrefixLen_le (a b : ID) : (CommonPrefixLen a b <= W)%nat.
Proof. unfold CommonPrefixLen, ZeroPrefixLen. lia. Qed.

Lemma splitLast_Done (rt : RoutingTable) :
  buckets rt <> [] -> exists rt' nb, splitLast split rt = Done (rt', nb).
Proof.
  intros Hne. unfold splitLast.
  destruct (index_last (buckets rt) Hne) as [b ->]. simpl. eauto.
Qed.

Lemma splitLast_bucketsize (rt rt' : RoutingTable) (nb : bucket) :
  splitLast split rt = Done (rt', nb) -> bucketsize rt' = bucketsize rt.
Proof.
  intros H. apply splitLast_inv in H as (b & _ & _ & ->). reflexivity.
Qed.

(** A record of the new bucket shares more than [d] bits with [local]. *)
Lemma splitLast_new_deeper (rt rt' : RoutingTable) (nb : bucket) (r : peerInfo) :
  splitLast split rt = Done (rt', nb) -> In r nb ->
  (List.length (buckets rt) - 1 < CommonPrefixLen (dhtId r) (local rt))%nat.
Proof.
  intros H Hr. apply splitLast_inv in H as (b & _ & -> & _).
  cbn [snd split] in Hr. apply filter_In in Hr as [_ Hc]. now apply Nat.ltb_lt in Hc.
Qed.

(** With no capacity the cascade never returns. *)
Lemma nextBucket_diverges (fuel : nat) (rt : RoutingTable) :
  buckets rt <> [] -> (bucketsize rt <= 0)%Z -> nextBucket fuel rt = OutOfFuel.
Proof.
  revert rt. induction fuel as [|fuel IH]; intros rt Hne Hk; [reflexivity|].
  destruct (splitLast_Done rt Hne) as (rt1 & nb & Hs).
  simpl nextBucket. rewrite Hs. cbn [bind].
  pose proof (splitLast_length _ _ _ _ Hs) as [Hlen _].
  pose proof (splitLast_bucketsize _ _ _ Hs) as Hbs.
  destruct (Z.leb_spec (bucketsize rt1) (len nb)) as [Hfull|Hroom].
  - apply IH; [|lia]. intros E. rewrite E in Hlen. discriminate.
  - unfold len in Hroom. lia.
Qed.

(** ** The split and the assignment invariant *)

(** C2, as amended.  On a table that satisfies the assignment invariant,
    the split of the last bucket at depth [d = m-1] leaves in bucket [d] the
    records that share exactly [d] bits with the local key and appends, as
    bucket [d+1], those that share at least [d+1] bits; the table has one
    bucket more and satisfies the assignment invariant, after one split and
    after the whole cascade of [nextBucket]. *)
Theorem splitLast_keeps_assignment (rt rt' : RoutingTable) (b nb : bucket) :
  assigned rt ->
  lastBucket rt = Some b ->
  splitLast split rt = Done (rt', nb) ->
  let d := (List.length (buckets rt) - 1)%nat in
  nth_error (buckets rt') d
  = Some (filter (fun r => (CommonPrefixLen (dhtId r) (local rt) =? d)%nat) b) /\
  nth_error (buckets rt') (d + 1)
  = Some (filter (fun r => (d + 1 <=? CommonPrefixLen (dhtId r) (local rt))%nat) b) /\
  List.length (buckets rt') = (List.length (buckets rt) + 1)%nat /\
  assigned rt' /\
  forall fuel rt'', nextBucket fuel rt = Done rt'' -> assigned rt''.
Proof.
  intros Ha Hb Hs d.
  pose proof (splitLast_assigned _ _ _ Ha Hs) as Ha'.
  pose proof (splitLast_length _ _ _ _ Hs) as [Hlen Hne].
  apply splitLast_inv in Hs as (b0 & Hb0 & -> & ->).
  unfold lastBucket in Hb. rewrite Hb in Hb0. injection Hb0 as <-.
  fold d. cbn [buckets set_buckets] in *.
  assert (Hd : (d < List.length (buckets rt))%nat).
  { apply nth_error_Some. fold d in Hb. congruence. }
  repeat split.
  - rewrite nth_error_app1 by (rewrite store_length; exact Hd).
    rewrite nth_error_store_same by exact Hd. f_equal.
    cbn [fst split]. apply filter_ext_in. intros r Hr.
    pose proof (Ha _ _ _ Hb Hr) as Hi. fold d in Hi.
    destruct (Nat.ltb_spec d (CommonPrefixLen (dhtId r) (local rt)));
      destruct (Nat.eqb_spec (CommonPrefixLen (dhtId r) (local rt)) d);
      simpl; auto; lia.
  - transitivity
      (nth_error
         (store (buckets rt) d (fst (split d (local rt) b)) ++ [snd (split d (local rt) b)])
         (List.length (store (buckets rt) d (fst (split d (local rt) b))))).
    { f_equal. rewrite store_length. unfold d. lia. }
    rewrite nth_error_snoc. f_equal.
    cbn [snd split]. apply filter_ext. intros r.
    destruct (Nat.ltb_spec d (CommonPrefixLen (dhtId r) (local rt)));
      destruct (Nat.leb_spec (d + 1) (CommonPrefixLen (dhtId r) (local rt)));
      auto; lia.
  - rewrite length_app, store_length. cbn [List.length]. lia.
  - exact Ha'.
  - intros fuel rt''. apply nextBucket_assigned. exact Ha.
Qed.

(** ** Capacity *)

(** C7, as amended.  With a bucket size that is not negative, in every
    state the operations lead to no bucket, the last included, holds more
    than [bucketsize] records; and so it is when an admission returns. *)
Theorem capacity_invariant (rt : RoutingTable) :
  reachable rt ->
  (0 <= bucketsize rt)%Z ->
  within_capacity rt /\
  forall fuel e p queryPeer rt' evs res,
    TryAddPeer fuel e rt p queryPeer = Done (rt', evs, res) -> within_capacity rt'.
Proof.
  intros Hr Hk.
  assert (Hc : within_capacity rt).
  { revert Hk.
    induction Hr as [k l lat thr int ping conn rt Hnew
                   | rt fuel e p q rt' evs res _ IH H
                   | rt p rt' evs _ IH H
                   | rt p t rt' ok _ IH H
                   | rt lv ps rt' evs _ IH H]; intros Hk.
    - unfold NewRoutingTable in Hnew.
      destruct ping as [pf|], conn as [cf|]; try discriminate.
      injection Hnew as <-. intros b0 [E|[]]. rewrite <- E. exact Hk.
    - destruct (addPeer_set_buckets _ _ _ _ _ _ _ _ H) as [bs E].
      eapply addPeer_within_capacity; eauto. apply IH. now rewrite E in Hk.
    - eapply removePeer_within_capacity; eauto. apply IH.
      apply removePeer_cases in H as [[-> _]|(b & b' & _ & _ & -> & _)]; auto.
    - apply Update_cases in H as [[-> _]|(b & Hb & -> & _)]; auto.
      specialize (IH Hk).
      apply within_capacity_store; auto.
      destruct (setLastSuccessfulOutboundQuery_spec b p t) as [Hl _].
      pose proof (IH _ (nth_error_In _ _ Hb)). unfold len in *. lia.
    - apply visit_cases in H as [[-> _]|(_ & _ & H)]; auto.
      eapply removePeer_within_capacity; eauto. apply IH.
      apply removePeer_cases in H as [[-> _]|(b & b' & _ & _ & -> & _)]; auto. }
  split; [exact Hc|].
  intros fuel e p q rt' evs res H. eapply addPeer_within_capacity; eauto.
Qed.

(** ** Termination of the cascade *)

(** C8, as amended.  On a table with a bucket size of at least one,
    [nextBucket] returns: fuel above the key width is enough.  The last
    bucket then holds fewer than [bucketsize] records, and the table has at
    most [W + 2] buckets, or one more than before. *)
Theorem nextBucket_terminates (rt : RoutingTable) (fuel : nat) :
  buckets rt <> [] ->
  (1 <= bucketsize rt)%Z ->
  (W < fuel)%nat ->
  exists rt' b,
    nextBucket fuel rt = Done rt' /\
    lastBucket rt' = Some b /\ (len b < bucketsize rt')%Z /\
    (List.length (buckets rt) < List.length (buckets rt')
     <= Nat.max (S (List.length (buckets rt))) (W + 2))%nat.
Proof.
  intros Hne Hk Hf.
  assert (Hret : forall n rt0,
             buckets rt0 <> [] -> (1 <= bucketsize rt0)%Z ->
             (W - (List.length (buckets rt0) - 1) < n)%nat ->
             exists rt',
               nextBucket n rt0 = Done rt' /\
               (List.length (buckets rt0) < List.length (buckets rt')
                <= Nat.max (S (List.length (buckets rt0))) (W + 2))%nat).
  { induction n as [|n IH]; intros rt0 Hne0 Hk0 Hn; [lia|].
    destruct (splitLast_Done rt0 Hne0) as (rt1 & nb & Hs).
    simpl nextBucket. rewrite Hs. cbn [bind].
    pose proof (splitLast_length _ _ _ _ Hs) as [Hlen _].
    pose proof (splitLast_bucketsize _ _ _ Hs) as Hbs.
    destruct (Z.leb_spec (bucketsize rt1) (len nb)) as [Hfull|Hroom].
    - destruct nb as [|r nb'] eqn:Enb; [cbn in Hfull; lia|].
      pose proof (splitLast_new_deeper _ _ _ r Hs (or_introl eq_refl)) as Hdeep.
      pose proof (CommonPrefixLen_le (dhtId r) (local rt0)) as HW.
      assert (Hm : (1 <= List.length (buckets rt0))%nat).
      { destruct (buckets rt0); [congruence | simpl; lia]. }
      destruct (IH rt1) as (rt' & Hrt' & Hb).
      + intros E. rewrite E in Hlen. discriminate.
      + lia.
      + lia.
      + exists rt'. split; [exact Hrt'|]. lia.
    - exists rt1. split; [reflexivity|]. lia. }
  destruct (Hret fuel rt Hne Hk) as (rt' & Hn & Hlen); [lia|].
  destruct (nextBucket_last _ _ _ Hn) as (b & Hb & Hlt).
  exists rt', b. auto.
Qed.

(** ** [Size] and [ListPeers] *)

Lemma fold_len_acc (l : list bucket) (a : Z) :
  fold_left (fun tot buck => (tot + len buck)%Z) l a
  = (a + fold_left (fun tot buck => (tot + len buck)%Z) l 0)%Z.
Proof.
  revert a; induction l as [|b l IH]; intros a; simpl; [lia|].
  rewrite (IH (a + len b)%Z), (IH (len b)). lia.
Qed.

Lemma Size_store (rt : RoutingTable) (i : nat) (b b' : bucket) :
  nth_error (buckets rt) i = Some b ->
  Size (set_buckets rt (store (buckets rt) i b')) = (Size rt - len b + len b')%Z.
Proof.
  unfold Size. cbn [buckets set_buckets]. generalize (buckets rt) as l.
  intros l; revert i; induction l as [|x l IH]; intros [|i] H; simpl in *;
    try discriminate.
  - injection H as ->. rewrite fold_len_acc, (fold_len_acc l (len b)). lia.
  - rewrite fold_len_acc, (fold_len_acc l (len x)). rewrite (IH i H). lia.
Qed.

Lemma fold_app_acc {A B : Type} (f : B -> list A) (l : list B) (acc : list A) :
  fold_left (fun ps b => ps ++ f b) l acc = acc ++ flat_map f l.
Proof.
  revert acc; induction l as [|b l IH]; intros acc; simpl.
  - now rewrite app_nil_r.
  - rewrite IH. now rewrite app_assoc.
Qed.

Lemma ListPeers_flat_map (rt : RoutingTable) :
  ListPeers rt = flat_map peerIds (buckets rt).
Proof. unfold ListPeers. now rewrite fold_app_acc. Qed.

Lemma In_ListPeers (rt : RoutingTable) (p : peerID) :
  In p (ListPeers rt) <-> present rt p.
Proof.
  rewrite ListPeers_flat_map, in_flat_map. unfold present. tauto.
Qed.

(** ** The local peer *)

Lemma CommonPrefixLen_same (x : ID) : CommonPrefixLen x x = W.
Proof.
  unfold CommonPrefixLen, ZeroPrefixLen, xor. rewrite N.lxor_nilpotent.
  cbn. lia.
Qed.

(** C1, as amended.  [TryAddPeer] treats the local id as any other id.  Its
    key shares all [W] bits with the local key, so it belongs to bucket
    [min W (m-1)]; when it is not there yet, its latency is acceptable and
    that bucket has room, it is admitted: the call returns [(true, nil)],
    fires [PeerAdded] and the local id is in the table. *)
Theorem local_peer_is_admitted (fuel : nat) (e : Env) (rt : RoutingTable)
    (localId : peerID) (queryPeer : bool) (b : bucket) :
  ConvertPeerID localId = local rt ->
  nth_error (buckets rt) (Nat.min W (List.length (buckets rt) - 1)) = Some b ->
  getPeer b localId = None ->
  (LatencyEWMA e localId <= maxLatency rt)%Z ->
  (len b < bucketsize rt)%Z ->
  exists rt',
    TryAddPeer fuel e rt localId queryPeer = Done (rt', [PeerAdded localId], (true, None)) /\
    nth_error (buckets rt') (Nat.min W (List.length (buckets rt) - 1))
    = Some (pushFront (entry e localId queryPeer) b) /\
    In localId (ListPeers rt').
Proof.
  intros Hkey Hb Hg Hlat Hroom.
  assert (Hid : bucketIdForPeer rt localId = Nat.min W (List.length (buckets rt) - 1)).
  { rewrite bucketIdForPeer_min, Hkey, CommonPrefixLen_same. reflexivity. }
  eexists. split; [|split].
  - unfold TryAddPeer, addPeer, index. rewrite Hid, Hb. cbn [bind]. rewrite Hg.
    destruct (Z.ltb_spec (maxLatency rt) (LatencyEWMA e localId)); [lia|].
    destruct (Z.ltb_spec (len b) (bucketsize rt)); [|lia].
    unfold pushNew. cbn [Id entry]. reflexivity.
  - cbn [buckets set_buckets]. apply nth_error_store_same.
    apply nth_error_Some. congruence.
  - apply In_ListPeers. exists (pushFront (entry e localId queryPeer) b). split.
    + cbn [buckets set_buckets].
      apply (nth_error_In _ (Nat.min W (List.length (buckets rt) - 1))).
      apply nth_error_store_same. apply nth_error_Some. congruence.
    + unfold peerIds, pushFront. simpl. auto.
Qed.

(** ** Eviction of a stale record *)

(** A call of [addPeer] fires [PeerAdded] for the peer, or nothing:
    [PeerRemoved] is not among its events, whatever it evicted. *)
Lemma addPeer_events (fuel : nat) (e : Env) (rt : RoutingTable) (p : peerID)
    (queryPeer : bool) (rt' : RoutingTable) (evs : list event) (res : bool * option error) :
  addPeer fuel e rt p queryPeer = Done (rt', evs, res) ->
  (evs = [] /\ fst res = false) \/ (evs = [PeerAdded p] /\ res = (true, None)).
Proof.
  intros H. apply addPeer_cases in H as (rtX & _ & [(_ & -> & ?)|(b & b' & _ & -> & ->)]);
    auto.
Qed.

(** ** Staleness of a record that was never queried *)

(** C6, as amended.  The age of a record that was never queried is the
    largest duration, [2^63 - 1] nanoseconds (some 292 years), once the
    clock is that far from the zero time; as a float64 it is [2^63].  The
    record is stale exactly for the thresholds below [2^63]: not for a
    larger one, not for an infinite one, not for a NaN. *)
Theorem never_queried_stale_below (now : Time) (threshold : float) (pc : peerInfo) :
  lastSuccessfulOutboundQuery pc = zeroTime ->
  (maxDuration <= now)%Z ->
  stale threshold now pc = (threshold <? 0x1p63)%float.
Proof.
  intros Hz Hnow. unfold stale, Since, Sub. rewrite Hz. unfold zeroTime.
  rewrite Z.sub_0_r.
  assert (Hmin : (now <? minDuration)%Z = false).
  { apply Z.ltb_ge. unfold minDuration, maxDuration in *. lia. }
  rewrite Hmin.
  destruct (Z.ltb_spec maxDuration now) as [Hgt|Hle].
  - reflexivity.
  - replace now with maxDuration by lia. reflexivity.
Qed.

(** ** The liveness loop *)

(** C9.  A visit of the liveness loop leaves the table as it is and fires
    nothing when the connectedness check answers true, and when the ping
    succeeds; when it changes the table or fires an event, the ping has
    failed, the check has answered false, and the change and the event are
    those of [removePeer] for the record's id. *)
Theorem liveness_eviction_is_gated (rt : RoutingTable) (lv : Liveness) (ps : peerInfo) :
  (connected lv = true -> visit rt lv ps = Done (rt, [])) /\
  (pingFails lv = false -> visit rt lv ps = Done (rt, [])) /\
  (forall rt' evs,
     visit rt lv ps = Done (rt', evs) ->
     rt' <> rt \/ evs <> [] ->
     pingFails lv = true /\ connected lv = false /\
     removePeer rt (Id ps) = Done (rt', evs) /\ evs = [PeerRemoved (Id ps)]).
Proof.
  split; [|split].
  - intros Hc. unfold visit. rewrite Hc.
    destruct (_ <? _)%Z; [|reflexivity]. destruct (pingFails lv); reflexivity.
  - intros Hp. unfold visit. rewrite Hp.
    destruct (_ <? _)%Z; reflexivity.
  - intros rt' evs H Hch.
    apply visit_cases in H as [[-> ->]|(Hp & Hc & Hr)]; [destruct Hch; congruence|].
    repeat split; auto.
    apply removePeer_cases in Hr as [[-> ->]|(_ & _ & _ & _ & _ & ->)];
      [destruct Hch; congruence | reflexivity].
Qed.

(** ** The sorter *)

Lemma insert_perm (x : peerDistance) (l : list peerDistance) :
  Permutation (insert x l) (x :: l).
Proof.
  induction l as [|y l IH]; simpl; [reflexivity|].
  destruct (distance x <=? distance y)%N; [reflexivity|].
  rewrite IH. apply perm_swap.
Qed.

Lemma sort_perm (l : list peerDistance) : Permutation (sort l) l.
Proof.
  induction l as [|x l IH]; simpl; [reflexivity|].
  rewrite insert_perm. now constructor.
Qed.

Lemma insert_sorted (x : peerDistance) (l : list peerDistance) :
  StronglySorted closer l -> StronglySorted closer (insert x l).
Proof.
  induction 1 as [|y l Hs IH Hall]; simpl.
  - repeat constructor.
  - destruct (N.leb_spec (distance x) (distance y)) as [Hle|Hgt].
    + constructor; [now constructor|].
      constructor; [exact Hle|].
      eapply Forall_impl; [|exact Hall]. unfold closer. intros z Hz. lia.
    + constructor; [exact IH|].
      apply (Permutation_Forall (Permutation_sym (insert_perm x l))).
      constructor; [unfold closer; lia | exact Hall].
Qed.

Lemma sort_sorted (l : list peerDistance) : StronglySorted closer (sort l).
Proof.
  induction l as [|x l IH]; simpl; [constructor | now apply insert_sorted].
Qed.

Lemma In_firstn {A : Type} (n : nat) (l : list A) (x : A) :
  In x (firstn n l) -> In x l.
Proof.
  revert n; induction l as [|y l IH]; intros [|n]; simpl; intuition eauto.
Qed.

Lemma In_skipn {A : Type} (n : nat) (l : list A) (x : A) :
  In x (skipn n l) -> In x l.
Proof.
  revert n; induction l as [|y l IH]; intros [|n]; simpl; intuition eauto.
Qed.

Lemma firstn_sorted (n : nat) (l : list peerDistance) :
  StronglySorted closer l -> StronglySorted closer (firstn n l).
Proof.
  intros H; revert n; induction H as [|y l Hs IH Hall]; intros [|n]; simpl;
    try constructor; auto.
  rewrite Forall_forall in *. intros z Hz. apply Hall.
  eapply In_firstn; eauto.
Qed.

Lemma sorted_distances (l : list peerDistance) :
  StronglySorted closer l -> Sorted N.le (map distance l).
Proof.
  intros H. apply StronglySorted_Sorted.
  induction H as [|y l Hs IH Hall]; simpl; constructor; auto.
  rewrite Forall_forall in *. intros d Hd.
  apply in_map_iff in Hd as (z & <- & Hz). exact (Hall z Hz).
Qed.

(** The first of a sorted list is as close as any entry of it. *)
Lemma sort_head (l : list peerDistance) (x : peerDistance) (rest : list peerDistance) :
  sort l = x :: rest -> forall y, In y l -> (distance x <= distance y)%N.
Proof.
  intros E y Hy.
  pose proof (sort_sorted l) as Hs. rewrite E in Hs.
  apply (Permutation_in _ (Permutation_sym (sort_perm l))) in Hy. rewrite E in Hy.
  inversion Hs as [|? ? _ Hall]; subst.
  destruct Hy as [<-|Hy]; [lia|].
  rewrite Forall_forall in Hall. exact (Hall y Hy).
Qed.

(** ** [NearestPeers]: the candidates *)

Lemma appendWhileShort_spec (t : ID) (n : Z) (bs : list bucket) (pds : list peerDistance) :
  exists extra,
    appendWhileShort t n pds bs = pds ++ extra /\
    (forall pd, In pd extra -> exists b r, In b bs /\ In r b /\ pd = appendPeer t r) /\
    ((n <= Z.of_nat (List.length pds))%Z -> extra = []).
Proof.
  revert pds; induction bs as [|b bs IH]; intros pds; simpl.
  - exists []. rewrite app_nil_r. split; [reflexivity|]. split; [intros ? []|auto].
  - destruct (Z.ltb_spec (Z.of_nat (List.length pds)) n) as [Hlt|Hge].
    + destruct (IH (appendPeersFromList t pds b)) as (extra & E & Hfrom & _).
      exists (map (appendPeer t) b ++ extra). split; [|split].
      * rewrite E. unfold appendPeersFromList. now rewrite app_assoc.
      * intros pd Hpd. apply in_app_or in Hpd as [Hpd|Hpd].
        -- apply in_map_iff in Hpd as (r & <- & Hr). exists b, r. auto.
        -- destruct (Hfrom pd Hpd) as (b' & r & ? & ? & ?). exists b', r. auto.
      * lia.
    + exists []. rewrite app_nil_r. split; [reflexivity|]. split; [intros ? []|auto].
Qed.

(** What [NearestPeers] returns: the ids of the first [count] entries of the
    sorted candidates, which are the records of the target's bucket and,
    when these are fewer than [count], records of other buckets. *)
Lemma NearestPeers_inv (rt : RoutingTable) (t : ID) (n : Z) (out : list peerID) :
  NearestPeers rt t n = Done out ->
  exists b extra,
    nth_error (buckets rt)
      (Nat.min (CommonPrefixLen t (local rt)) (List.length (buckets rt) - 1)) = Some b /\
    (forall pd, In pd extra ->
       exists b' r, In b' (buckets rt) /\ In r b' /\ pd = appendPeer t r) /\
    ((n <= len b)%Z -> extra = []) /\
    (0 <= n)%Z /\
    out = map p_ (firstn (Z.to_nat n) (sort (map (appendPeer t) b ++ extra))).
Proof.
  unfold NearestPeers.
  set (c := if (List.length (buckets rt) <=? CommonPrefixLen t (local rt))%nat
            then (List.length (buckets rt) - 1)%nat
            else CommonPrefixLen t (local rt)).
  assert (Hc : c = Nat.min (CommonPrefixLen t (local rt)) (List.length (buckets rt) - 1)).
  { unfold c. destruct (Nat.leb_spec (List.length (buckets rt))
                          (CommonPrefixLen t (local rt))); lia. }
  rewrite <- Hc.
  cbv zeta. destruct (_ || _)%bool; [discriminate|].
  unfold index. destruct (nth_error (buckets rt) c) as [b|] eqn:Hb; [|discriminate].
  cbn [bind]. change (appendPeersFromList t [] b) with (map (appendPeer t) b).
  destruct (appendWhileShort_spec t n (skipn (c + 1) (buckets rt)) (map (appendPeer t) b))
    as (e1 & E1 & Hf1 & Hs1).
  rewrite E1.
  destruct (appendWhileShort_spec t n (rev (firstn c (buckets rt)))
              (map (appendPeer t) b ++ e1)) as (e2 & E2 & Hf2 & Hs2).
  rewrite E2. rewrite <- app_assoc.
  set (pds := map (appendPeer t) b ++ e1 ++ e2).
  intros H. exists b, (e1 ++ e2).
  split; [reflexivity|]. split; [|split].
  - intros pd Hpd. apply in_app_or in Hpd as [Hpd|Hpd].
    + destruct (Hf1 pd Hpd) as (b' & r & Hb' & ? & ?). exists b', r.
      apply In_skipn in Hb'. auto.
    + destruct (Hf2 pd Hpd) as (b' & r & Hb' & ? & ?). exists b', r.
      apply in_rev, In_firstn in Hb'. auto.
  - intros Hn. unfold len in Hn.
    assert (He1 : e1 = []) by (apply Hs1; rewrite length_map; exact Hn).
    assert (He2 : e2 = []).
    { apply Hs2. rewrite He1, app_nil_r, length_map. exact Hn. }
    now rewrite He1, He2.
  - fold pds.
    destruct (Z.ltb_spec n (Z.of_nat (List.length (sort pds)))) as [Hlt|Hge].
    + destruct (Z.ltb_spec n 0); [discriminate|].
      injection H as <-. auto.
    + injection H as <-. split; [lia|].
      rewrite firstn_all2; [reflexivity | lia].
Qed.

(** ** The target's bucket holds the closest records *)

Lemma closer_bucket_bits (P Q T : N) (M : nat) :
  (bitlen P <= W)%nat -> (bitlen Q <= W)%nat -> (bitlen T <= W)%nat ->
  Nat.min (W - bitlen P) M = Nat.min (W - bitlen T) M ->
  Nat.min (W - bitlen Q) M <> Nat.min (W - bitlen T) M ->
  (N.lxor T P < N.lxor T Q)%N.
Proof.
  intros HP HQ HT Hx Hy. apply bitlen_lt.
  pose proof (bitlen_lxor_le T P) as F1.
  pose proof (bitlen_lxor_lt T Q) as F2a.
  pose proof (bitlen_lxor_lt Q T) as F2b. rewrite (N.lxor_comm Q T) in F2b.
  pose proof (bitlen_lxor_eq T P) as F3.
  destruct (Nat.lt_trichotomy (bitlen T) (bitlen Q)) as [Hlt|[Heq|Hgt]].
  - rewrite (F2a Hlt).
    destruct (Nat.eq_dec (bitlen T) (bitlen P)) as [E|E].
    + destruct (Nat.eq_dec (bitlen T) 0) as [Z|Z]; [lia|].
      specialize (F3 E). lia.
    + lia.
  - lia.
  - rewrite (F2b Hgt).
    destruct (Nat.eq_dec (bitlen T) (bitlen P)) as [E|E].
    + specialize (F3 E). lia.
    + lia.
Qed.

Lemma fits_xor (a b : ID) : fits a -> fits b -> (bitlen (xor a b) <= W)%nat.
Proof.
  intros Ha Hb. apply bitlen_bound in Ha, Hb.
  pose proof (bitlen_lxor_le a b). unfold xor. lia.
Qed.

(** A record of the bucket of the target is closer to the target than any
    record of another bucket. *)
Lemma other_bucket_is_farther (rt : RoutingTable) (t : ID) (b : bucket) (x : peerInfo)
    (j : nat) (b' : bucket) (y : peerInfo) :
  assigned rt ->
  fits t -> fits (local rt) -> fits (dhtId x) -> fits (dhtId y) ->
  nth_error (buckets rt)
    (Nat.min (CommonPrefixLen t (local rt)) (List.length (buckets rt) - 1)) = Some b ->
  In x b ->
  nth_error (buckets rt) j = Some b' -> In y b' ->
  j <> Nat.min (CommonPrefixLen t (local rt)) (List.length (buckets rt) - 1) ->
  (xor t (dhtId x) < xor t (dhtId y))%N.
Proof.
  intros Ha Ft Fl Fx Fy Hb Hx Hb' Hy Hj.
  pose proof (Ha _ _ _ Hb Hx) as Ex. pose proof (Ha _ _ _ Hb' Hy) as Ey.
  unfold CommonPrefixLen, ZeroPrefixLen in *.
  unfold xor at 1 2.
  rewrite <- (lxor_cancel t (dhtId x) (local rt)).
  rewrite <- (lxor_cancel t (dhtId y) (local rt)).
  apply closer_bucket_bits with (M := (List.length (buckets rt) - 1)%nat).
  - apply fits_xor; assumption.
  - apply fits_xor; assumption.
  - apply fits_xor; assumption.
  - unfold xor in *. lia.
  - unfold xor in *. lia.
Qed.

Lemma NearestPeers_Done (rt : RoutingTable) (t : ID) (n : Z) :
  buckets rt <> [] -> (0 <= n)%Z -> (0 <= int (n + bucketsize rt) <= makeLimit)%Z ->
  exists out, NearestPeers rt t n = Done out.
Proof.
  intros Hne Hn Hk. unfold NearestPeers. cbv zeta.
  destruct (Z.ltb_spec (int (n + bucketsize rt)) 0); [lia|].
  destruct (Z.ltb_spec makeLimit (int (n + bucketsize rt))); [lia|]. cbn [orb].
  unfold index.
  destruct (nth_error _ _) as [b|] eqn:Hb.
  - cbn [bind]. destruct (_ <? _)%Z; [|eauto].
    destruct (Z.ltb_spec n 0); [lia|eauto].
  - exfalso. apply nth_error_None in Hb.
    assert (1 <= List.length (buckets rt))%nat
      by (destruct (buckets rt); [congruence | simpl; lia]).
    destruct (Nat.leb_spec (List.length (buckets rt)) (CommonPrefixLen t (local rt)));
      lia.
Qed.

(** The candidates are records of the table, with the distance of their key. *)
Lemma candidate_record (rt : RoutingTable) (t : ID) (b : bucket) (c : nat)
    (extra : list peerDistance) (pd : peerDistance) :
  keyed rt ->
  nth_error (buckets rt) c = Some b ->
  (forall pd, In pd extra ->
     exists b' r, In b' (buckets rt) /\ In r b' /\ pd = appendPeer t r) ->
  In pd (map (appendPeer t) b ++ extra) ->
  exists b' r, In b' (buckets rt) /\ In r b' /\ pd = appendPeer t r /\
               distance pd = xor t (ConvertPeerID (p_ pd)).
Proof.
  intros Hk Hb Hextra Hpd.
  assert (H : exists b' r, In b' (buckets rt) /\ In r b' /\ pd = appendPeer t r).
  { apply in_app_or in Hpd as [Hpd|Hpd]; [|auto].
    apply in_map_iff in Hpd as (r & <- & Hr). exists b, r.
    apply nth_error_In in Hb. auto. }
  destruct H as (b' & r & Hb' & Hr & ->). exists b', r. repeat split; auto.
  cbn [distance p_ appendPeer]. now rewrite (Hk _ _ Hb' Hr).
Qed.

(** ** Nearest peers *)

Lemma returned_distances (rt : RoutingTable) (t : ID) (b : bucket) (c : nat)
    (extra : list peerDistance) (l : list peerDistance) :
  keyed rt ->
  nth_error (buckets rt) c = Some b ->
  (forall pd, In pd extra ->
     exists b' r, In b' (buckets rt) /\ In r b' /\ pd = appendPeer t r) ->
  incl l (map (appendPeer t) b ++ extra) ->
  distances t (map p_ l) = map distance l.
Proof.
  intros Hk Hb Hextra Hl. unfold distances. rewrite map_map.
  apply map_ext_in. intros pd Hpd.
  destruct (candidate_record rt t b c extra pd Hk Hb Hextra (Hl _ Hpd))
    as (_ & _ & _ & _ & _ & E).
  now rewrite E.
Qed.


(** ** [Find] *)


(** ** The eviction sweep *)

Lemma remove_In (b : bucket) (r : peerInfo) :
  In r b -> exists b', remove b (Id r) = (b', true).
Proof.
  induction b as [|x b IH]; intros Hr; [destruct Hr|]. simpl.
  destruct (String.eqb_spec (Id x) (Id r)) as [E|E]; [eauto|].
  destruct Hr as [->|Hr]; [congruence|].
  destruct (IH Hr) as [b' ->]. eauto.
Qed.

(** The sweep stops at the first stale record of the snapshot and removes
    the first record of its id from the bucket. *)
Lemma sweep_first_stale (thr : float) (now : Time) (b : bucket)
    (pre : list peerInfo) (pc : peerInfo) (post : list peerInfo) :
  In pc b ->
  (forall r, In r pre -> stale thr now r = false) ->
  stale thr now pc = true ->
  exists b', remove b (Id pc) = (b', true) /\
             sweep thr now (pre ++ pc :: post) b = Some b'.
Proof.
  intros Hin Hpre Hpc. destruct (remove_In b pc Hin) as [b' Hr].
  exists b'. split; [exact Hr|].
  induction pre as [|r pre IH]; simpl.
  - now rewrite Hpc, Hr.
  - rewrite (Hpre r (or_introl eq_refl)). apply IH.
    intros r' Hr'. apply Hpre. now right.
Qed.

(** The part of C3 that the code does: when the bucket of an absent peer
    of acceptable latency is full, is not the last one (so that nothing
    unfolds) and holds a stale record, [addPeer] removes the first stale
    record in the order of the bucket, pushes the peer at the front, fires
    [PeerAdded] for it and returns [(true, nil)]. *)
Lemma stale_eviction_admits (fuel : nat) (e : Env) (rt : RoutingTable) (p : peerID)
    (queryPeer : bool) (pre : list peerInfo) (pc : peerInfo) (post : list peerInfo) :
  nth_error (buckets rt) (bucketIdForPeer rt p) = Some (pre ++ pc :: post) ->
  getPeer (pre ++ pc :: post) p = None ->
  (LatencyEWMA e p <= maxLatency rt)%Z ->
  (bucketsize rt <= len (pre ++ pc :: post))%Z ->
  bucketIdForPeer rt p <> (List.length (buckets rt) - 1)%nat ->
  (forall r, In r pre ->
     stale (maxLastSuccessfulOutboundThreshold rt) (now e) r = false) ->
  stale (maxLastSuccessfulOutboundThreshold rt) (now e) pc = true ->
  exists b',
    remove (pre ++ pc :: post) (Id pc) = (b', true) /\
    addPeer fuel e rt p queryPeer
    = Done (set_buckets rt
              (store (buckets rt) (bucketIdForPeer rt p)
                 (pushFront (entry e p queryPeer) b')),
            [PeerAdded p], (true, None)).
Proof.
  intros Hb Hg Hlat Hfull Hlast Hpre Hpc.
  destruct (sweep_first_stale (maxLastSuccessfulOutboundThreshold rt) (now e)
              (pre ++ pc :: post) pre pc post) as (b' & Hr & Hs); auto.
  { apply in_or_app. right. now left. }
  exists b'. split; [exact Hr|].
  unfold addPeer, index. rewrite Hb. cbn [bind]. rewrite Hg.
  destruct (Z.ltb_spec (maxLatency rt) (LatencyEWMA e p)); [lia|].
  destruct (Z.ltb_spec (len (pre ++ pc :: post)) (bucketsize rt)); [lia|].
  destruct (Nat.eqb_spec (bucketIdForPeer rt p) (List.length (buckets rt) - 1));
    [congruence|].
  unfold evict, peers. rewrite Hs. reflexivity.
Qed.

(** A negative count makes [NearestPeers] panic. *)
Lemma NearestPeers_negative_count (rt : RoutingTable) (t : ID) (n : Z) :
  (n < 0)%Z -> NearestPeers rt t n = Panic.
Proof.
  intros Hn. unfold NearestPeers. cbv zeta.
  destruct (_ || _)%bool; [reflexivity|].
  unfold index. destruct (nth_error _ _); [|reflexivity]. cbn [bind].
  match goal with
  | |- context [(n <? Z.of_nat ?l)%Z] =>
      destruct (Z.ltb_spec n (Z.of_nat l)) as [_|Hge]; [|lia]
  end.
  destruct (Z.ltb_spec n 0); [reflexivity|lia].
Qed.

(** ** Further properties: the records of a table *)

Lemma flat_map_store {A B : Type} (f : A -> list B) (bs : list A) (i : nat) (b : A) :
  nth_error bs i = Some b ->
  exists pre post,
    flat_map f bs = pre ++ f b ++ post /\
    forall b', flat_map f (store bs i b') = pre ++ f b' ++ post.
Proof.
  revert i; induction bs as [|x bs IH]; intros [|i] H; simpl in H; try discriminate.
  - injection H as ->. exists [], (flat_map f bs). simpl. auto.
  - destruct (IH i H) as (pre & post & E & E').
    exists (f x ++ pre), post. simpl. split.
    + now rewrite E, app_assoc.
    + intros b'. now rewrite E', app_assoc.
Qed.

Lemma snapshot_flat_map (rt : RoutingTable) : snapshot rt = flat_map peers (buckets rt).
Proof. unfold snapshot. now rewrite fold_app_acc. Qed.

Lemma ListPeers_snapshot (rt : RoutingTable) : ListPeers rt = map Id (snapshot rt).
Proof.
  rewrite ListPeers_flat_map, snapshot_flat_map.
  induction (buckets rt) as [|b bs IH]; simpl; [reflexivity|].
  unfold peers at 1. now rewrite map_app, IH.
Qed.

Lemma filter_partition_perm {A : Type} (f : A -> bool) (l : list A) :
  Permutation l (filter (fun x => negb (f x)) l ++ filter f l).
Proof.
  induction l as [|x l IH]; simpl; [constructor|].
  destruct (f x); simpl.
  - now apply Permutation_cons_app.
  - now constructor.
Qed.

Lemma splitLast_snapshot (rt rt' : RoutingTable) (nb : bucket) :
  splitLast split rt = Done (rt', nb) -> Permutation (snapshot rt') (snapshot rt).
Proof.
  intros H. apply splitLast_inv in H as (b & Hb & -> & ->).
  rewrite !snapshot_flat_map. cbn [buckets set_buckets].
  destruct (flat_map_store peers (buckets rt) _ b Hb) as (pre & post & E & E').
  rewrite flat_map_app, E', E. cbn [flat_map]. rewrite app_nil_r.
  unfold peers at 1 2 3. cbn [fst snd split].
  rewrite <- !app_assoc.
  apply Permutation_app_head.
  rewrite (filter_partition_perm
             (fun r => (List.length (buckets rt) - 1 <? CommonPrefixLen (dhtId r) (local rt))%nat)
             b) at 3.
  rewrite <- !app_assoc. apply Permutation_app_head. apply Permutation_app_comm.
Qed.

Lemma nextBucket_snapshot (fuel : nat) (rt rt' : RoutingTable) :
  nextBucket fuel rt = Done rt' -> Permutation (snapshot rt') (snapshot rt).
Proof.
  apply (nextBucket_preserves (fun r => Permutation (snapshot r) (snapshot rt))).
  - intros r r' nb Hp Hs. rewrite <- Hp. eapply splitLast_snapshot; eauto.
  - reflexivity.
Qed.

Lemma Size_snapshot (rt : RoutingTable) : Size rt = Z.of_nat (List.length (snapshot rt)).
Proof.
  rewrite snapshot_flat_map. unfold Size.
  induction (buckets rt) as [|b bs IH]; simpl; [reflexivity|].
  rewrite fold_len_acc, IH, length_app. unfold len, peers. lia.
Qed.

(** ** Further properties: [addPeer], case by case *)

Lemma getPeer_None (b : bucket) (p : peerID) :
  getPeer b p = None <-> ~ In p (peerIds b).
Proof.
  unfold getPeer, peerIds. split.
  - intros H Hin. apply in_map_iff in Hin as (r & Hid & Hr).
    apply (find_none _ _ H) in Hr. rewrite Hid, String.eqb_refl in Hr. discriminate.
  - intros H. destruct (find _ b) as [r|] eqn:E; auto.
    apply find_some in E as [Hin He]. apply String.eqb_eq in He.
    exfalso. apply H. apply in_map_iff. eauto.
Qed.

Lemma remove_split (b : bucket) (p : peerID) (b' : bucket) :
  remove b p = (b', true) ->
  exists l1 r l2,
    b = l1 ++ r :: l2 /\ b' = l1 ++ l2 /\ Id r = p /\ forall x, In x l1 -> Id x <> p.
Proof.
  revert b'; induction b as [|x b IH]; intros b' H; simpl in H; [discriminate|].
  destruct (String.eqb_spec (Id x) p) as [E|E].
  - injection H as <-. exists [], x, b. simpl. intuition.
  - destruct (remove b p) as [b'' found] eqn:R. injection H as <- ->.
    destruct (IH b'' eq_refl) as (l1 & r & l2 & -> & -> & Hid & Hl1).
    exists (x :: l1), r, l2. simpl. repeat split; auto.
    intros y [<-|Hy]; auto.
Qed.

Lemma sweep_None (thr : float) (now : Time) (l : list peerInfo) (b : bucket) :
  sweep thr now l b = None -> incl l b -> forall r, In r l -> stale thr now r = false.
Proof.
  induction l as [|pc l IH]; intros H Hincl r Hr; [destruct Hr|].
  simpl in H. destruct (stale thr now pc) eqn:E.
  - destruct (remove_In b pc (Hincl pc (or_introl eq_refl))) as [b' Hb'].
    rewrite Hb' in H. discriminate.
  - destruct Hr as [<-|Hr]; [exact E|].
    apply IH; auto. intros x Hx. apply Hincl. now right.
Qed.

(** The ways a call of [addPeer] returns. *)
Lemma addPeer_inv (fuel : nat) (e : Env) (rt : RoutingTable) (p : peerID)
    (queryPeer : bool) (rt' : RoutingTable) (evs : list event) (res : bool * option error) :
  addPeer fuel e rt p queryPeer = Done (rt', evs, res) ->
  exists b0,
    nth_error (buckets rt) (bucketIdForPeer rt p) = Some b0 /\
    ((getPeer b0 p <> None /\ rt' = rt /\ evs = [] /\ res = (false, None)) \/
     (getPeer b0 p = None /\ (maxLatency rt < LatencyEWMA e p)%Z /\
      rt' = rt /\ evs = [] /\ res = (false, Some ErrPeerRejectedHighLatency)) \/
     (getPeer b0 p = None /\ (LatencyEWMA e p <= maxLatency rt)%Z /\
      exists rtX,
        (rtX = rt \/
         (bucketIdForPeer rt p = (List.length (buckets rt) - 1)%nat /\
          nextBucket fuel rt = Done rtX)) /\
        ((exists b b', pushed e rtX p queryPeer b b' rt' /\
                       evs = [PeerAdded p] /\ res = (true, None)) \/
         (exists b,
            nth_error (buckets rtX) (bucketIdForPeer rtX p) = Some b /\
            (bucketsize rtX <= len b)%Z /\
            sweep (maxLastSuccessfulOutboundThreshold rtX) (now e) (peers b) b = None /\
            rt' = rtX /\ evs = [] /\
            res = (false, Some ErrPeerRejectedNoCapacity))))).
Proof.
  unfold addPeer, index.
  destruct (nth_error (buckets rt) (bucketIdForPeer rt p)) as [b|] eqn:Hb;
    simpl; [|discriminate].
  intros H. exists b. split; [reflexivity|].
  destruct (getPeer b p) as [r|] eqn:Hg.
  { injection H as <- <- <-. left. repeat split; auto. discriminate. }
  right.
  destruct (Z.ltb_spec (maxLatency rt) (LatencyEWMA e p)) as [Hlat|Hlat].
  { injection H as <- <- <-. left. auto. }
  right. split; [reflexivity|]. split; [exact Hlat|].
  assert (Hev : forall rtX bX,
             nth_error (buckets rtX) (bucketIdForPeer rtX p) = Some bX ->
             (bucketsize rtX <= len bX)%Z ->
             evict e rtX (bucketIdForPeer rtX p) bX (entry e p queryPeer) = (rt', evs, res) ->
             (exists b1 b', pushed e rtX p queryPeer b1 b' rt' /\
                            evs = [PeerAdded p] /\ res = (true, None)) \/
             (exists b1,
                nth_error (buckets rtX) (bucketIdForPeer rtX p) = Some b1 /\
                (bucketsize rtX <= len b1)%Z /\
                sweep (maxLastSuccessfulOutboundThreshold rtX) (now e) (peers b1) b1 = None /\
                rt' = rtX /\ evs = [] /\
                res = (false, Some ErrPeerRejectedNoCapacity))).
  { intros rtX bX HbX Hfull. unfold evict, pushNew.
    destruct (sweep _ _ _ _) as [b'|] eqn:S; intros Hx; injection Hx as <- <- <-.
    - left. exists bX, b'. unfold pushed. auto 10.
    - right. exists bX. auto 10. }
  destruct (Z.ltb_spec (len b) (bucketsize rt)) as [Hroom|Hfull].
  { unfold pushNew in H. injection H as <- <- <-. exists rt. split; auto.
    left. exists b, b. unfold pushed. auto 10. }
  destruct (Nat.eqb_spec (bucketIdForPeer rt p) (List.length (buckets rt) - 1)) as [Hl|Hl].
  - destruct (nextBucket fuel rt) as [rt1| |] eqn:Hn; simpl in H; try discriminate.
    destruct (nth_error (buckets rt1) (bucketIdForPeer rt1 p)) as [b1|] eqn:Hb1;
      simpl in H; [|discriminate].
    exists rt1. split; auto.
    destruct (Z.ltb_spec (len b1) (bucketsize rt1)) as [Hroom1|Hfull1].
    + unfold pushNew in H. injection H as <- <- <-.
      left. exists b1, b1. unfold pushed. auto 10.
    + injection H as H. exact (Hev _ _ Hb1 Hfull1 H).
  - injection H as H. exists rt. split; auto. exact (Hev _ _ Hb Hfull H).
Qed.

Lemma pushed_snapshot (e : Env) (rt : RoutingTable) (p : peerID) (queryPeer : bool)
    (b b' : bucket) (rt' : RoutingTable) :
  pushed e rt p queryPeer b b' rt' ->
  exists pre post,
    snapshot rt = pre ++ b ++ post /\
    snapshot rt' = pre ++ (entry e p queryPeer :: b') ++ post.
Proof.
  intros (Hb & _ & ->). rewrite !snapshot_flat_map. cbn [buckets set_buckets].
  destruct (flat_map_store peers (buckets rt) _ b Hb) as (pre & post & E & E').
  exists pre, post. split; [exact E|]. now rewrite E'.
Qed.

(** What [pushed] took out of the bucket: nothing, or one record, whose id
    is the id of a stale record of the bucket. *)
Lemma pushed_bucket (e : Env) (rt : RoutingTable) (p : peerID) (queryPeer : bool)
    (b b' : bucket) (rt' : RoutingTable) :
  pushed e rt p queryPeer b b' rt' ->
  b' = b \/
  exists l1 r l2 pc,
    b = l1 ++ r :: l2 /\ b' = l1 ++ l2 /\ Id r = Id pc /\ In pc b /\
    stale (maxLastSuccessfulOutboundThreshold rt) (now e) pc = true.
Proof.
  intros (_ & [[-> _]|[_ Hs]] & _); [now left|right].
  apply sweep_Some in Hs as (pc & Hpc & Hst & Hr).
  apply remove_split in Hr as (l1 & r & l2 & E & E' & Hid & _).
  exists l1, r, l2, pc. auto.
Qed.

Lemma snapshot_perm_ListPeers (rt rt' : RoutingTable) :
  Permutation (snapshot rt') (snapshot rt) -> Permutation (ListPeers rt') (ListPeers rt).
Proof. intros H. rewrite !ListPeers_snapshot. now apply Permutation_map. Qed.

Lemma snapshot_perm_Size (rt rt' : RoutingTable) :
  Permutation (snapshot rt') (snapshot rt) -> Size rt' = Size rt.
Proof. intros H. rewrite !Size_snapshot. now rewrite (Permutation_length H). Qed.

Lemma nextBucket_threshold (fuel : nat) (rt rt' : RoutingTable) :
  nextBucket fuel rt = Done rt' ->
  maxLastSuccessfulOutboundThreshold rt' = maxLastSuccessfulOutboundThreshold rt.
Proof. intros H. now destruct (nextBucket_set_buckets _ _ _ H) as [bs ->]. Qed.

(** ** Further properties of the operations *)

(** X1. [Size] and [ListPeers] agree: [Size] is the number of ids that
    [ListPeers] returns, and [ListPeers] returns the ids of the records of
    the snapshot the liveness loop takes, in the same order. *)
Theorem Size_counts_ListPeers (rt : RoutingTable) :
  Size rt = Z.of_nat (List.length (ListPeers rt)) /\
  ListPeers rt = map Id (snapshot rt).
Proof.
  assert (E : ListPeers rt = map Id (snapshot rt)).
  { unfold ListPeers, snapshot. rewrite !fold_app_acc. simpl.
    induction (buckets rt) as [|b bs IH]; simpl; [reflexivity|].
    unfold peerIds at 1, peers at 1. now rewrite map_app, IH. }
  split; [|exact E].
  rewrite E, length_map. unfold Size, snapshot. rewrite fold_app_acc. simpl.
  induction (buckets rt) as [|b bs IH]; simpl; [reflexivity|].
  rewrite fold_len_acc, IH, length_app. unfold len, peers. lia.
Qed.

(** X2. [nextBucket] moves records between buckets and loses none: when it
    returns, the table lists the same peers as before (in another order),
    its size is the same, and it has at least one bucket more. *)
Theorem nextBucket_keeps_the_peers (fuel : nat) (rt rt' : RoutingTable) :
  nextBucket fuel rt = Done rt' ->
  Permutation (ListPeers rt') (ListPeers rt) /\
  Size rt' = Size rt /\
  (List.length (buckets rt) < List.length (buckets rt'))%nat.
Proof.
  intros H.
  assert (Hp : Permutation (snapshot rt') (snapshot rt)).
  { exact (nextBucket_snapshot _ _ _ H). }
  split; [now apply snapshot_perm_ListPeers|].
  split; [now apply snapshot_perm_Size|].
  destruct fuel as [|fuel]; simpl in H; [discriminate|].
  destruct (splitLast split rt) as [[rt1 nb]| |] eqn:Hs; simpl in H; try discriminate.
  destruct (splitLast_length _ _ _ _ Hs) as [Hlen _].
  destruct (bucketsize rt1 <=? len nb)%Z.
  - apply (nextBucket_preserves
             (fun r => (List.length (buckets rt) < List.length (buckets r))%nat))
      with (2 := ltac:(lia) : (List.length (buckets rt) < List.length (buckets rt1))%nat)
           (3 := H).
    intros r r' nb' Hr Hs'. destruct (splitLast_length _ _ _ _ Hs') as [Hlen' _]. lia.
  - injection H as <-. lia.
Qed.

(** X3. A peer is admitted once: after a call of [TryAddPeer] that returned
    [true] for [p], any further call for [p] (whatever the clock, the
    latency and [queryPeer] are) finds the record, returns [(false, nil)],
    fires no callback and leaves the table as it is. *)
Theorem TryAddPeer_twice (fuel : nat) (e : Env) (rt : RoutingTable) (p : peerID)
    (queryPeer : bool) (rt1 : RoutingTable) (ev1 : list event)
    (fuel' : nat) (e' : Env) (queryPeer' : bool) :
  TryAddPeer fuel e rt p queryPeer = Done (rt1, ev1, (true, None)) ->
  TryAddPeer fuel' e' rt1 p queryPeer' = Done (rt1, [], (false, None)).
Proof.
  intros H. apply addPeer_inv in H as (b0 & Hb0 & [H|[H|H]]).
  { destruct H as (_ & _ & _ & H). discriminate. }
  { destruct H as (_ & _ & _ & _ & H). discriminate. }
  destruct H as (_ & _ & rtX & _ & [(b & b' & Hp & _)|(b & _ & _ & _ & _ & _ & H)]);
    [|discriminate].
  destruct Hp as (Hb & _ & ->).
  unfold TryAddPeer, addPeer, index.
  rewrite bucketIdForPeer_set_buckets by apply store_length.
  cbn [buckets set_buckets].
  rewrite nth_error_store_same by (apply nth_error_Some; congruence).
  simpl. unfold getPeer, pushFront. simpl. now rewrite String.eqb_refl.
Qed.

(** X4. What a rejection means.  When [TryAddPeer] returns an error, the
    boolean is [false], no callback was fired, and the table lists the same
    peers as before (an unfolding may have moved them).  With
    [ErrPeerRejectedHighLatency] the table is untouched and the latency of
    the peer is above the limit; with [ErrPeerRejectedNoCapacity] the
    latency is acceptable, and the bucket of the peer, in the table as the
    call leaves it, is full and holds no record that is stale at the time
    of the call. *)
Theorem TryAddPeer_rejection (fuel : nat) (e : Env) (rt : RoutingTable) (p : peerID)
    (queryPeer : bool) (rt' : RoutingTable) (evs : list event) (ok : bool) (err : error) :
  TryAddPeer fuel e rt p queryPeer = Done (rt', evs, (ok, Some err)) ->
  ok = false /\ evs = [] /\
  Permutation (ListPeers rt') (ListPeers rt) /\ Size rt' = Size rt /\
  match err with
  | ErrPeerRejectedHighLatency =>
      rt' = rt /\ (maxLatency rt < LatencyEWMA e p)%Z
  | ErrPeerRejectedNoCapacity =>
      (LatencyEWMA e p <= maxLatency rt)%Z /\
      exists b,
        nth_error (buckets rt') (bucketIdForPeer rt' p) = Some b /\
        (bucketsize rt' <= len b)%Z /\
        forall r, In r b ->
          stale (maxLastSuccessfulOutboundThreshold rt) (now e) r = false
  end.
Proof.
  intros H. apply addPeer_inv in H as (b0 & Hb0 & [H|[H|H]]).
  { destruct H as (_ & _ & _ & H). discriminate. }
  { destruct H as (_ & Hlat & -> & -> & H). injection H as -> ->. auto 10. }
  destruct H as (_ & Hlat & rtX & HX & [(b & b' & _ & _ & H)|H]); [discriminate|].
  destruct H as (b & Hb & Hfull & Hs & -> & -> & H). injection H as -> ->.
  assert (Hp : Permutation (snapshot rtX) (snapshot rt)).
  { destruct HX as [->|[_ HX]]; [reflexivity|exact (nextBucket_snapshot _ _ _ HX)]. }
  assert (Hthr : maxLastSuccessfulOutboundThreshold rtX
                 = maxLastSuccessfulOutboundThreshold rt).
  { destruct HX as [->|[_ HX]]; [reflexivity|exact (nextBucket_threshold _ _ _ HX)]. }
  repeat split; auto using snapshot_perm_ListPeers, snapshot_perm_Size.
  exists b. repeat split; auto.
  intros r Hr. rewrite <- Hthr.
  apply (sweep_None _ _ _ _ Hs); [apply incl_refl|exact Hr].
Qed.

(** X5. An admission costs at most one record, and only a stale one.
    Whatever [TryAddPeer] returns, the size of the table does not shrink and
    grows by at most one; a peer listed before the call is listed after
    it, unless the call admitted [p] in the place of a record of that id's
    that was stale at the time of the call; and when the call returns
    [true], [p] is listed. *)
Theorem TryAddPeer_evicts_only_stale (fuel : nat) (e : Env) (rt : RoutingTable)
    (p : peerID) (queryPeer : bool) (rt' : RoutingTable) (evs : list event)
    (res : bool * option error) :
  TryAddPeer fuel e rt p queryPeer = Done (rt', evs, res) ->
  (Size rt <= Size rt' <= Size rt + 1)%Z /\
  (fst res = true -> In p (ListPeers rt')) /\
  forall x, In x (ListPeers rt) ->
    In x (ListPeers rt') \/
    (res = (true, None) /\
     exists r, In r (snapshot rt) /\ Id r = x /\
               stale (maxLastSuccessfulOutboundThreshold rt) (now e) r = true).
Proof.
  intros H. apply addPeer_inv in H as (b0 & Hb0 & [H|[H|H]]).
  { destruct H as (_ & -> & -> & ->). simpl. repeat split; auto; try lia; discriminate. }
  { destruct H as (_ & _ & -> & -> & ->). simpl. repeat split; auto; try lia; discriminate. }
  destruct H as (_ & _ & rtX & HX & H).
  assert (Hp : Permutation (snapshot rtX) (snapshot rt)).
  { destruct HX as [->|[_ HX]]; [reflexivity|exact (nextBucket_snapshot _ _ _ HX)]. }
  assert (Hthr : maxLastSuccessfulOutboundThreshold rtX
                 = maxLastSuccessfulOutboundThreshold rt).
  { destruct HX as [->|[_ HX]]; [reflexivity|exact (nextBucket_threshold _ _ _ HX)]. }
  destruct H as [(b & b' & Hpu & -> & ->)|(b & _ & _ & _ & -> & -> & ->)].
  2:{ simpl. rewrite (snapshot_perm_Size _ _ Hp). split; [lia|split; [discriminate|]].
      intros x Hx. left.
      now apply (Permutation_in _ (Permutation_sym (snapshot_perm_ListPeers _ _ Hp))). }
  destruct (pushed_snapshot _ _ _ _ _ _ _ Hpu) as (pre & post & E & E').
  rewrite <- (snapshot_perm_Size _ _ Hp), !Size_snapshot, E, E'.
  rewrite !ListPeers_snapshot, E'.
  split; [|split].
  - destruct (pushed_bucket _ _ _ _ _ _ _ Hpu) as [->|(l1 & r & l2 & pc & -> & -> & _)];
      rewrite !length_app; simpl; rewrite ?length_app; simpl; lia.
  - intros _. rewrite map_app. apply in_or_app. right. simpl. now left.
  - intros x Hx.
    apply (Permutation_in _ (Permutation_sym (Permutation_map Id Hp))) in Hx.
    rewrite E, !map_app in Hx. rewrite !map_app. simpl.
    apply in_app_or in Hx as [Hx|Hx]; [left; apply in_or_app; now left|].
    apply in_app_or in Hx as [Hx|Hx];
      [|left; apply in_or_app; right; right; apply in_or_app; now right].
    destruct (pushed_bucket _ _ _ _ _ _ _ Hpu)
      as [->|(l1 & r & l2 & pc & -> & -> & Hid & Hpc & Hst)].
    { left. apply in_or_app. right. right. apply in_or_app. now left. }
    rewrite map_app in Hx. simpl in Hx.
    assert (Hl : In x (map Id (l1 ++ l2)) -> 
                 In x (map Id pre ++ p :: map Id (l1 ++ l2) ++ map Id post)).
    { intros Hin. apply in_or_app. right. right. apply in_or_app. now left. }
    apply in_app_or in Hx as [Hx|[Hx|Hx]].
    + left. apply Hl. rewrite map_app. apply in_or_app. now left.
    + right. split; [reflexivity|]. exists pc. rewrite <- Hthr. repeat split; auto; [|congruence].
      apply (Permutation_in _ Hp). rewrite E.
      apply in_or_app. right. apply in_or_app. now left.
    + left. apply Hl. rewrite map_app. apply in_or_app. now right.
Qed.

(** ** Further properties: each id once *)

Lemma its_bucket (rt : RoutingTable) (p : peerID) :
  buckets rt <> [] -> exists b, nth_error (buckets rt) (bucketIdForPeer rt p) = Some b.
Proof.
  intros Hne.
  destruct (nth_error (buckets rt) (bucketIdForPeer rt p)) as [b|] eqn:E; eauto.
  apply nth_error_None in E. rewrite bucketIdForPeer_min in E.
  destruct (buckets rt); [congruence|simpl in E; lia].
Qed.

Lemma listed_in_its_bucket (rt : RoutingTable) (p : peerID) :
  well_formed rt -> In p (ListPeers rt) ->
  exists b, nth_error (buckets rt) (bucketIdForPeer rt p) = Some b /\ In p (peerIds b).
Proof.
  intros (Hne & Ha & Hk) Hin. apply In_ListPeers in Hin as (b & Hb & Hp).
  unfold peerIds in Hp. apply in_map_iff in Hp as (r & Hid & Hr).
  destruct (In_nth_error _ _ Hb) as [i Hi].
  exists b. split; [|apply in_map_iff; eauto].
  rewrite bucketIdForPeer_min, <- Hid, <- (Hk b r Hb Hr).
  now rewrite <- (Ha i b r Hi Hr).
Qed.

Lemma bucket_listed (rt : RoutingTable) (i : nat) (b : bucket) (p : peerID) :
  nth_error (buckets rt) i = Some b -> In p (peerIds b) -> In p (ListPeers rt).
Proof.
  intros Hb Hp. apply In_ListPeers. exists b. split; [|exact Hp].
  exact (nth_error_In _ _ Hb).
Qed.

Lemma ListPeers_store (rt : RoutingTable) (i : nat) (b : bucket) :
  nth_error (buckets rt) i = Some b ->
  exists pre post,
    ListPeers rt = pre ++ peerIds b ++ post /\
    forall b', ListPeers (set_buckets rt (store (buckets rt) i b'))
               = pre ++ peerIds b' ++ post.
Proof.
  intros Hb. destruct (flat_map_store peerIds (buckets rt) i b Hb) as (pre & post & E & E').
  exists pre, post. rewrite ListPeers_flat_map. split; [exact E|].
  intros b'. rewrite ListPeers_flat_map. cbn [buckets set_buckets]. apply E'.
Qed.

Lemma NoDup_without {A : Type} (pre l1 l2 post : list A) (x : A) :
  NoDup (pre ++ (l1 ++ x :: l2) ++ post) ->
  NoDup (pre ++ (l1 ++ l2) ++ post) /\ ~ In x (pre ++ (l1 ++ l2) ++ post).
Proof.
  intros H.
  replace (pre ++ (l1 ++ x :: l2) ++ post) with ((pre ++ l1) ++ x :: (l2 ++ post)) in H
    by (rewrite <- !app_assoc; reflexivity).
  apply NoDup_remove in H.
  replace (pre ++ (l1 ++ l2) ++ post) with ((pre ++ l1) ++ l2 ++ post)
    by (rewrite <- !app_assoc; reflexivity).
  exact H.
Qed.

Lemma NoDup_with {A : Type} (pre l post : list A) (x : A) :
  NoDup (pre ++ l ++ post) -> ~ In x (pre ++ l ++ post) ->
  NoDup (pre ++ (x :: l) ++ post).
Proof.
  intros H Hx. simpl. apply (Permutation_NoDup (Permutation_middle pre (l ++ post) x)).
  now constructor.
Qed.

Lemma remove_false (b : bucket) (p : peerID) (b' : bucket) :
  remove b p = (b', false) -> ~ In p (peerIds b).
Proof.
  intros H Hin. unfold peerIds in Hin. apply in_map_iff in Hin as (r & <- & Hr).
  destruct (remove_In b r Hr) as [b'' E]. congruence.
Qed.

Lemma peerIds_setLastSuccessfulOutboundQuery (b : bucket) (p : peerID) (t : Time) :
  peerIds (setLastSuccessfulOutboundQuery b p t) = peerIds b.
Proof.
  unfold peerIds. induction b as [|r b IH]; simpl; [reflexivity|].
  destruct (String.eqb (Id r) p); simpl; [reflexivity|now rewrite IH].
Qed.

Lemma removePeer_ListPeers (rt : RoutingTable) (p : peerID) (rt' : RoutingTable)
    (evs : list event) :
  removePeer rt p = Done (rt', evs) ->
  (rt' = rt /\ evs = [] /\
   exists b, nth_error (buckets rt) (bucketIdForPeer rt p) = Some b /\
             ~ In p (peerIds b)) \/
  (evs = [PeerRemoved p] /\
   exists pre l1 l2 post,
     ListPeers rt = pre ++ (l1 ++ p :: l2) ++ post /\
     ListPeers rt' = pre ++ (l1 ++ l2) ++ post).
Proof.
  unfold removePeer, index.
  destruct (nth_error (buckets rt) (bucketIdForPeer rt p)) as [b|] eqn:Hb;
    simpl; [|discriminate].
  destruct (remove b p) as [b' [|]] eqn:Hr; intros H; injection H as <- <-.
  - right. split; [reflexivity|].
    destruct (remove_split _ _ _ Hr) as (l1 & r & l2 & -> & -> & Hid & _).
    destruct (ListPeers_store _ _ _ Hb) as (pre & post & E & E').
    exists pre, (map Id l1), (map Id l2), post. rewrite E, E'.
    unfold peerIds. rewrite !map_app. simpl. now rewrite Hid.
  - left. repeat split. exists b. split; [reflexivity|]. exact (remove_false _ _ _ Hr).
Qed.

Lemma removePeer_NoDup (rt : RoutingTable) (p : peerID) (rt' : RoutingTable)
    (evs : list event) :
  NoDup (ListPeers rt) -> removePeer rt p = Done (rt', evs) -> NoDup (ListPeers rt').
Proof.
  intros Hn H.
  apply removePeer_ListPeers in H
    as [(-> & _)|(_ & pre & l1 & l2 & post & E & ->)]; [exact Hn|].
  rewrite E in Hn. now apply NoDup_without in Hn.
Qed.

Lemma addPeer_NoDup (fuel : nat) (e : Env) (rt : RoutingTable) (p : peerID)
    (queryPeer : bool) (rt' : RoutingTable) (evs : list event) (res : bool * option error) :
  well_formed rt -> NoDup (ListPeers rt) ->
  addPeer fuel e rt p queryPeer = Done (rt', evs, res) -> NoDup (ListPeers rt').
Proof.
  intros Hwf Hn H. apply addPeer_inv in H as (b0 & Hb0 & [H|[H|H]]).
  { now destruct H as (_ & -> & _). }
  { now destruct H as (_ & _ & -> & _). }
  destruct H as (Hg & _ & rtX & HX & H).
  assert (Hp : Permutation (ListPeers rtX) (ListPeers rt)).
  { apply snapshot_perm_ListPeers.
    destruct HX as [->|[_ HX]]; [reflexivity|exact (nextBucket_snapshot _ _ _ HX)]. }
  assert (HnX : NoDup (ListPeers rtX)).
  { exact (Permutation_NoDup (Permutation_sym Hp) Hn). }
  assert (Hout : ~ In p (ListPeers rtX)).
  { intros Hin. apply (Permutation_in _ Hp) in Hin.
    destruct (listed_in_its_bucket _ _ Hwf Hin) as (b & Hb & Hpb).
    rewrite Hb0 in Hb. injection Hb as <-. now apply getPeer_None in Hg. }
  destruct H as [(b & b' & Hpu & _)|(b & _ & _ & _ & -> & _)]; [|exact HnX].
  destruct (pushed_snapshot _ _ _ _ _ _ _ Hpu) as (pre & post & E & E').
  rewrite ListPeers_snapshot, E, map_app, map_app in HnX, Hout.
  rewrite ListPeers_snapshot, E', map_app, map_app. cbn [map Id entry].
  destruct (pushed_bucket _ _ _ _ _ _ _ Hpu) as [->|(l1 & r & l2 & pc & -> & -> & _)].
  - now apply NoDup_with.
  - rewrite map_app in HnX, Hout. cbn [map] in HnX, Hout.
    apply NoDup_with.
    + rewrite map_app. now apply NoDup_without in HnX.
    + intros Hin. apply Hout. rewrite map_app in Hin.
      apply in_app_or in Hin as [Hin|Hin]; [apply in_or_app; now left|].
      apply in_or_app. right.
      apply in_app_or in Hin as [Hin|Hin]; [|apply in_or_app; now right].
      apply in_or_app. left.
      apply in_app_or in Hin as [Hin|Hin]; apply in_or_app; [now left|right; now right].
Qed.

Lemma Update_ListPeers (rt : RoutingTable) (p : peerID) (t : Time) (rt' : RoutingTable)
    (ok : bool) :
  UpdateLastSuccessfulOutboundQuery rt p t = Done (rt', ok) -> ListPeers rt' = ListPeers rt.
Proof.
  intros H. apply Update_cases in H as [[-> _]|(b & Hb & -> & _)]; [reflexivity|].
  destruct (ListPeers_store _ _ _ Hb) as (pre & post & E & E').
  now rewrite E, E', peerIds_setLastSuccessfulOutboundQuery.
Qed.

Lemma reachable_NoDup (rt : RoutingTable) : reachable rt -> NoDup (ListPeers rt).
Proof.
  induction 1 as [k l lat thr int ping conn rt H
                 |rt fuel e p q rt' evs res Hr IH H
                 |rt p rt' evs Hr IH H
                 |rt p t rt' ok Hr IH H
                 |rt lv ps rt' evs Hr IH H].
  - unfold NewRoutingTable in H. destruct ping, conn; try discriminate.
    injection H as <-. constructor.
  - exact (addPeer_NoDup _ _ _ _ _ _ _ _ (reachable_well_formed _ Hr) IH H).
  - exact (removePeer_NoDup _ _ _ _ IH H).
  - now rewrite (Update_ListPeers _ _ _ _ _ H).
  - apply visit_cases in H as [[-> _]|(_ & _ & H)]; [exact IH|].
    exact (removePeer_NoDup _ _ _ _ IH H).
Qed.

(** X6. In every state the operations lead to, no id is listed twice, and
    an id is listed exactly when the lookup every operation does (the bucket
    [bucketIdForPeer] names, then [getPeer]) finds it. *)
Theorem reachable_ids_are_distinct (rt : RoutingTable) :
  reachable rt ->
  NoDup (ListPeers rt) /\
  forall p,
    In p (ListPeers rt) <->
    exists b, nth_error (buckets rt) (bucketIdForPeer rt p) = Some b /\
              getPeer b p <> None.
Proof.
  intros Hr. split; [exact (reachable_NoDup _ Hr)|].
  pose proof (reachable_well_formed _ Hr) as Hwf.
  intros p. split.
  - intros Hin. destruct (listed_in_its_bucket _ _ Hwf Hin) as (b & Hb & Hp).
    exists b. split; [exact Hb|]. intros Hg. now apply getPeer_None in Hg.
  - intros (b & Hb & Hg). apply (bucket_listed _ _ _ _ Hb).
    destruct (in_dec string_dec p (peerIds b)) as [Hin|Hout]; [exact Hin|].
    now apply getPeer_None in Hout.
Qed.

Lemma remove_absent (b : bucket) (p : peerID) :
  ~ In p (peerIds b) -> remove b p = (b, false).
Proof.
  unfold peerIds. induction b as [|r b IH]; intros H; simpl; [reflexivity|].
  destruct (String.eqb_spec (Id r) p) as [E|E]; [exfalso; apply H; now left|].
  rewrite IH; [reflexivity|]. intros Hin. apply H. now right.
Qed.

Lemma removePeer_absent (rt : RoutingTable) (p : peerID) :
  buckets rt <> [] -> ~ In p (ListPeers rt) -> removePeer rt p = Done (rt, []).
Proof.
  intros Hne Hno. destruct (its_bucket rt p Hne) as [b Hb].
  unfold removePeer, index. rewrite Hb. cbn [bind].
  rewrite remove_absent; [reflexivity|].
  intros Hin. apply Hno. exact (bucket_listed _ _ _ _ Hb Hin).
Qed.

(** X7. [RemovePeer] removes exactly [p].  In every state the operations
    lead to, [RemovePeer(p)] returns (it does not panic); when [p] is
    listed it fires [PeerRemoved(p)] once and the size drops by one, when
    [p] is not listed it fires nothing and leaves the table as it is;
    either way the peers listed afterwards are the peers listed before
    other than [p], and a second [RemovePeer(p)] changes nothing and fires
    nothing. *)
Theorem RemovePeer_removes_exactly (rt : RoutingTable) (p : peerID) :
  reachable rt ->
  exists rt' evs,
    RemovePeer rt p = Done (rt', evs) /\
    (In p (ListPeers rt) -> evs = [PeerRemoved p] /\ Size rt' = (Size rt - 1)%Z) /\
    (~ In p (ListPeers rt) -> evs = [] /\ rt' = rt) /\
    (forall x, In x (ListPeers rt') <-> In x (ListPeers rt) /\ x <> p) /\
    RemovePeer rt' p = Done (rt', []).
Proof.
  intros Hr.
  pose proof (reachable_well_formed _ Hr) as Hwf.
  pose proof (reachable_NoDup _ Hr) as Hn.
  destruct (its_bucket rt p (proj1 Hwf)) as [b Hb].
  assert (Hret : exists rt' evs, RemovePeer rt p = Done (rt', evs)).
  { unfold RemovePeer, removePeer, index. rewrite Hb. simpl.
    destruct (remove b p) as [b' [|]]; eauto. }
  destruct Hret as (rt' & evs & H). exists rt', evs. split; [exact H|].
  pose proof (reachable_well_formed _ (reachable_RemovePeer _ _ _ _ _ _ Hr H)) as Hwf'.
  destruct (removePeer_ListPeers _ _ _ _ H)
    as [(-> & -> & b1 & Hb1 & Hout)|(-> & pre & l1 & l2 & post & E & E')].
  - assert (Hno : ~ In p (ListPeers rt)).
    { intros Hin. destruct (listed_in_its_bucket _ _ Hwf Hin) as (b2 & Hb2 & Hp).
      congruence. }
    repeat split; auto; try tauto. congruence.
  - assert (Hin : In p (ListPeers rt)).
    { rewrite E. apply in_or_app. right. apply in_or_app. left.
      apply in_or_app. right. now left. }
    rewrite E in Hn. apply NoDup_without in Hn as [_ Hout].
    split; [|split; [|split]];
      [| | |apply (removePeer_absent _ _ (proj1 Hwf')); now rewrite E'].
    + intros _. split; [reflexivity|].
      rewrite !Size_snapshot, <- !(length_map Id), <- !ListPeers_snapshot.
      rewrite E, E', !length_app. simpl. lia.
    + tauto.
    + intros x. rewrite E, E'. split.
      * intros Hx. split; [|congruence].
        apply in_app_or in Hx as [Hx|Hx]; [apply in_or_app; now left|].
        apply in_or_app. right.
        apply in_app_or in Hx as [Hx|Hx]; [|apply in_or_app; now right].
        apply in_or_app. left.
        apply in_app_or in Hx as [Hx|Hx]; apply in_or_app; [now left|right; now right].
      * intros [Hx Hne].
        apply in_app_or in Hx as [Hx|Hx]; [apply in_or_app; now left|].
        apply in_or_app. right.
        apply in_app_or in Hx as [Hx|Hx]; [|apply in_or_app; now right].
        apply in_or_app. left.
        apply in_app_or in Hx as [Hx|[Hx|Hx]]; apply in_or_app;
          [now left|congruence|now right].
Qed.

Lemma setLastSuccessfulOutboundQuery_split (b : bucket) (p : peerID) (t : Time) :
  getPeer b p <> None ->
  exists l1 r l2,
    b = l1 ++ r :: l2 /\ Id r = p /\
    setLastSuccessfulOutboundQuery b p t
    = l1 ++ {| Id := Id r; lastSuccessfulOutboundQuery := t; dhtId := dhtId r |} :: l2.
Proof.
  unfold getPeer. induction b as [|x b IH]; simpl; [congruence|].
  destruct (String.eqb_spec (Id x) p) as [E|E]; intros H.
  - exists [], x, b. auto.
  - destruct (IH H) as (l1 & r & l2 & -> & Hid & ->).
    exists (x :: l1), r, l2. auto.
Qed.

Lemma map_untouched {A : Type} (f : A -> A) (l : list A) :
  (forall x, In x l -> f x = x) -> map f l = l.
Proof.
  induction l as [|x l IH]; intros H; simpl; [reflexivity|].
  rewrite (H x (or_introl eq_refl)), IH; [reflexivity|].
  intros y Hy. apply H. now right.
Qed.

(** X8. [UpdateLastSuccessfulOutboundQuery] writes one timestamp.  In every
    state the operations lead to, the call returns (it does not panic), it
    returns [true] exactly when [p] is listed, and the records of the table
    afterwards are the records before, in the same order, with the
    timestamp [t] in the record of [p] and nothing else changed; so the
    same peers are listed, and the table is as it was when [p] is absent. *)
Theorem Update_sets_one_timestamp (rt : RoutingTable) (p : peerID) (t : Time) :
  reachable rt ->
  exists rt' ok,
    UpdateLastSuccessfulOutboundQuery rt p t = Done (rt', ok) /\
    (ok = true <-> In p (ListPeers rt)) /\
    (ok = false -> rt' = rt) /\
    ListPeers rt' = ListPeers rt /\
    snapshot rt'
    = map (fun r => if String.eqb (Id r) p
                    then {| Id := Id r; lastSuccessfulOutboundQuery := t; dhtId := dhtId r |}
                    else r) (snapshot rt).
Proof.
  intros Hr.
  pose proof (reachable_well_formed _ Hr) as Hwf.
  pose proof (reachable_NoDup _ Hr) as Hn.
  destruct (its_bucket rt p (proj1 Hwf)) as [b Hb].
  set (f := fun r => if String.eqb (Id r) p
                     then {| Id := Id r; lastSuccessfulOutboundQuery := t; dhtId := dhtId r |}
                     else r).
  assert (Hf : forall l, (forall x, In x l -> Id x <> p) -> map f l = l).
  { intros l Hl. apply map_untouched. intros x Hx. unfold f.
    destruct (String.eqb_spec (Id x) p) as [E|E]; [now apply Hl in Hx|reflexivity]. }
  unfold UpdateLastSuccessfulOutboundQuery, index. rewrite Hb. simpl.
  destruct (getPeer b p) as [r0|] eqn:Hg.
  - eexists _, _. split; [reflexivity|].
    assert (Hg' : getPeer b p <> None) by congruence.
    split; [|split; [discriminate|split]].
    + split; [intros _|reflexivity]. apply (bucket_listed _ _ _ _ Hb).
      destruct (in_dec string_dec p (peerIds b)) as [Hin|Hout]; [exact Hin|].
      now apply getPeer_None in Hout.
    + destruct (ListPeers_store _ _ _ Hb) as (pre & post & E & E').
      now rewrite E, E', peerIds_setLastSuccessfulOutboundQuery.
    + destruct (setLastSuccessfulOutboundQuery_split b p t Hg')
        as (l1 & r & l2 & Eb & Hid & Es).
      destruct (flat_map_store peers (buckets rt) _ b Hb) as (pre & post & E & E').
      rewrite ListPeers_snapshot, snapshot_flat_map, E in Hn.
      rewrite !snapshot_flat_map. cbn [buckets set_buckets]. rewrite E', E.
      unfold peers in *. rewrite Es. subst b.
      rewrite !map_app in Hn. cbn [map] in Hn.
      apply NoDup_without in Hn as [_ Hout]. rewrite Hid in Hout.
      assert (Hpre : forall x, In x pre -> Id x <> p).
      { intros x Hx <-. apply Hout. apply in_or_app. left. now apply in_map. }
      assert (Hl1 : forall x, In x l1 -> Id x <> p).
      { intros x Hx <-. apply Hout. apply in_or_app. right. apply in_or_app. left.
        apply in_or_app. left. now apply in_map. }
      assert (Hl2 : forall x, In x l2 -> Id x <> p).
      { intros x Hx <-. apply Hout. apply in_or_app. right. apply in_or_app. left.
        apply in_or_app. right. now apply in_map. }
      assert (Hpost : forall x, In x post -> Id x <> p).
      { intros x Hx <-. apply Hout. apply in_or_app. right. apply in_or_app. right.
        now apply in_map. }
      rewrite !map_app. cbn [map].
      rewrite (Hf _ Hpre), (Hf _ Hl1), (Hf _ Hl2), (Hf _ Hpost).
      unfold f at 1. now rewrite Hid, String.eqb_refl.
  - eexists _, _. split; [reflexivity|].
    assert (Hno : ~ In p (ListPeers rt)).
    { intros Hin. destruct (listed_in_its_bucket _ _ Hwf Hin) as (b2 & Hb2 & Hp).
      rewrite Hb in Hb2. injection Hb2 as <-. now apply getPeer_None in Hg. }
    split; [|split; [reflexivity|split; [reflexivity|]]].
    + split; [discriminate|tauto].
    + symmetry. apply Hf. intros x Hx <-. apply Hno.
      rewrite ListPeers_snapshot. now apply in_map.
Qed.

(** ** Further properties: the buckets of a table *)

Lemma nextBucket_length_bound (fuel : nat) (rt rt' : RoutingTable) :
  (List.length (buckets rt) <= W + 1)%nat ->
  nextBucket fuel rt = Done rt' ->
  (List.length (buckets rt') <= W + 2)%nat.
Proof.
  revert rt; induction fuel as [|fuel IH]; intros rt Hm H; simpl in H; [discriminate|].
  destruct (splitLast split rt) as [[rt1 nb]| |] eqn:Hs; simpl in H; try discriminate.
  destruct (splitLast_length _ _ _ _ Hs) as [Hlen Hne].
  destruct (Z.leb_spec (bucketsize rt1) (len nb)) as [Hfull|Hroom].
  - destruct (Z.le_gt_cases (bucketsize rt1) 0) as [Hk|Hk].
    + rewrite nextBucket_diverges in H; [discriminate| |exact Hk].
      intros E. rewrite E in Hlen. discriminate.
    + destruct nb as [|r nb]; [unfold len in Hfull; simpl in Hfull; lia|].
      pose proof (splitLast_new_deeper _ _ _ r Hs (or_introl eq_refl)) as Hd.
      pose proof (CommonPrefixLen_le (dhtId r) (local rt)) as Hw.
      apply (IH rt1); [lia|exact H].
  - injection H as <-. lia.
Qed.

(** X9. The number of buckets is bounded by the key width.  In every state
    the operations lead to, the table has at least one bucket and at most
    [W + 2], [W] the number of bits of a key (258 buckets for the 256-bit
    keys of the DHT); and no call of [TryAddPeer] that returns makes the
    number of buckets smaller. *)
Theorem bucket_count_is_bounded (rt : RoutingTable) :
  reachable rt ->
  (1 <= List.length (buckets rt) <= W + 2)%nat /\
  forall fuel e p queryPeer rt' evs res,
    TryAddPeer fuel e rt p queryPeer = Done (rt', evs, res) ->
    (List.length (buckets rt) <= List.length (buckets rt'))%nat.
Proof.
  assert (Hadd : forall fuel e rt p q rt' evs res,
             addPeer fuel e rt p q = Done (rt', evs, res) ->
             (List.length (buckets rt) <= List.length (buckets rt'))%nat /\
             ((List.length (buckets rt) <= W + 2)%nat ->
              (List.length (buckets rt') <= W + 2)%nat)).
  { intros fuel e r p q r' evs res H.
    apply addPeer_inv in H as (b0 & Hb0 & [H|[H|H]]).
    { destruct H as (_ & -> & _). split; auto. }
    { destruct H as (_ & _ & -> & _). split; auto. }
    destruct H as (_ & _ & rtX & HX & H).
    assert (HlX : (List.length (buckets r) <= List.length (buckets rtX))%nat /\
                  ((List.length (buckets r) <= W + 2)%nat ->
                   (List.length (buckets rtX) <= W + 2)%nat)).
    { destruct HX as [->|[Hlast HX]]; [split; auto|].
      split.
      - apply (nextBucket_preserves
                 (fun x => (List.length (buckets r) <= List.length (buckets x))%nat))
          with (2 := le_n _) (3 := HX).
        intros x x' nb Hx Hs. destruct (splitLast_length _ _ _ _ Hs) as [Hlen _]. lia.
      - intros _. apply (nextBucket_length_bound _ _ _) with (2 := HX).
        rewrite bucketIdForPeer_min in Hlast.
        pose proof (CommonPrefixLen_le (ConvertPeerID p) (local r)). lia. }
    destruct H as [(b & b' & (_ & _ & ->) & _)|(b & _ & _ & _ & -> & _)];
      [|exact HlX].
    cbn [buckets set_buckets]. now rewrite store_length. }
  assert (Hrem : forall r p r' evs,
             removePeer r p = Done (r', evs) ->
             List.length (buckets r') = List.length (buckets r)).
  { intros r p r' evs H.
    apply removePeer_cases in H as [[-> _]|(b & b' & _ & _ & -> & _)]; [reflexivity|].
    cbn [buckets set_buckets]. apply store_length. }
  intros Hr. split.
  - induction Hr as [k l lat thr int ping conn rt H
                    |rt fuel e p q rt' evs res Hr IH H
                    |rt p rt' evs Hr IH H
                    |rt p t rt' ok Hr IH H
                    |rt lv ps rt' evs Hr IH H].
    + unfold NewRoutingTable in H. destruct ping, conn; try discriminate.
      injection H as <-. simpl. lia.
    + destruct (Hadd _ _ _ _ _ _ _ _ H) as [Hle Hup]. lia.
    + rewrite (Hrem _ _ _ _ H). exact IH.
    + apply Update_cases in H as [[-> _]|(b & _ & -> & _)]; [exact IH|].
      cbn [buckets set_buckets]. now rewrite store_length.
    + apply visit_cases in H as [[-> _]|(_ & _ & H)]; [exact IH|].
      rewrite (Hrem _ _ _ _ H). exact IH.
  - intros fuel e p q rt' evs res H. exact (proj1 (Hadd _ _ _ _ _ _ _ _ H)).
Qed.

(** ** Further properties: what [NearestPeers] collects *)

Lemma nth_error_parts {A : Type} (l : list A) (c : nat) (b : A) :
  nth_error l c = Some b -> l = firstn c l ++ b :: skipn (c + 1) l.
Proof.
  revert c; induction l as [|a l IH]; intros [|c] H; simpl in H; try discriminate.
  - now injection H as ->.
  - simpl. f_equal. now apply IH.
Qed.

(** The loop takes whole buckets, in order, and leaves none when it ends
    short of [count]. *)
Lemma appendWhileShort_taken (t : ID) (n : Z) (bs : list bucket) (pds : list peerDistance) :
  exists j,
    appendWhileShort t n pds bs
    = pds ++ map (appendPeer t) (flat_map peers (firstn j bs)) /\
    ((Z.of_nat (List.length (appendWhileShort t n pds bs)) < n)%Z -> skipn j bs = []).
Proof.
  revert pds; induction bs as [|b bs IH]; intros pds; simpl.
  - exists 0%nat. simpl. rewrite app_nil_r. auto.
  - destruct (Z.ltb_spec (Z.of_nat (List.length pds)) n) as [Hlt|Hge].
    + destruct (IH (appendPeersFromList t pds b)) as (j & E & Hj).
      exists (S j). simpl. split; [|exact Hj].
      rewrite E. unfold appendPeersFromList, peers. now rewrite map_app, app_assoc.
    + exists 0%nat. simpl. rewrite app_nil_r. split; [reflexivity|lia].
Qed.

(** What [NearestPeers] returns, in terms of the ids of the table: the
    first [count] ids of a list [l] of listed ids, and [l] has all of them
    when it has fewer than [count]. *)
Lemma NearestPeers_out (rt : RoutingTable) (t : ID) (n : Z) (out : list peerID) :
  NearestPeers rt t n = Done out ->
  exists l rest,
    out = firstn (Z.to_nat n) l /\
    Permutation (l ++ rest) (ListPeers rt) /\
    ((Z.of_nat (List.length l) < n)%Z -> rest = []) /\
    (0 <= n)%Z.
Proof.
  unfold NearestPeers.
  set (c := if (List.length (buckets rt) <=? CommonPrefixLen t (local rt))%nat
            then (List.length (buckets rt) - 1)%nat
            else CommonPrefixLen t (local rt)).
  cbv zeta. destruct (_ || _)%bool; [discriminate|].
  unfold index. destruct (nth_error (buckets rt) c) as [b|] eqn:Hb; [|discriminate].
  cbn [bind]. change (appendPeersFromList t [] b) with (map (appendPeer t) b).
  set (X := skipn (c + 1) (buckets rt)).
  set (Y := rev (firstn c (buckets rt))).
  destruct (appendWhileShort_taken t n X (map (appendPeer t) b)) as (j1 & E1 & H1).
  set (r1 := appendWhileShort t n (map (appendPeer t) b) X) in *.
  destruct (appendWhileShort_taken t n Y r1) as (j2 & E2 & H2).
  set (r2 := appendWhileShort t n r1 Y) in *.
  set (cands := b ++ flat_map peers (firstn j1 X) ++ flat_map peers (firstn j2 Y)).
  assert (Er2 : r2 = map (appendPeer t) cands).
  { rewrite E2, E1. unfold cands. now rewrite !map_app, app_assoc. }
  assert (Hlen12 : (List.length r1 <= List.length r2)%nat).
  { rewrite E2, length_app. lia. }
  assert (Hperm : Permutation (map p_ (sort r2)) (map Id cands)).
  { rewrite Er2. transitivity (map p_ (map (appendPeer t) cands)).
    - apply Permutation_map, sort_perm.
    - rewrite map_map. simpl. reflexivity. }
  set (rest := flat_map peers (skipn j1 X) ++ flat_map peers (skipn j2 Y)).
  assert (Hall : Permutation (cands ++ rest) (snapshot rt)).
  { set (A1 := flat_map peers (firstn j1 X)). set (A2 := flat_map peers (skipn j1 X)).
    set (B1 := flat_map peers (firstn j2 Y)). set (B2 := flat_map peers (skipn j2 Y)).
    assert (HX : flat_map peers X = A1 ++ A2).
    { unfold A1, A2. now rewrite <- flat_map_app, firstn_skipn. }
    assert (HY : Permutation (flat_map peers (firstn c (buckets rt))) (B1 ++ B2)).
    { unfold B1, B2. rewrite <- flat_map_app, firstn_skipn. unfold Y.
      apply Permutation_flat_map, Permutation_rev. }
    assert (E : snapshot rt = flat_map peers (firstn c (buckets rt)) ++ b ++ A1 ++ A2).
    { rewrite snapshot_flat_map, <- HX.
      transitivity (flat_map peers (firstn c (buckets rt) ++ b :: X)).
      - f_equal. exact (nth_error_parts _ _ _ Hb).
      - now rewrite flat_map_app. }
    rewrite E, HY. unfold cands, rest. fold A1 A2 B1 B2.
    transitivity ((b ++ A1 ++ A2) ++ B1 ++ B2); [|apply Permutation_app_comm].
    rewrite <- !app_assoc. do 2 apply Permutation_app_head.
    apply Permutation_app_swap_app. }
  assert (Hrest : (Z.of_nat (List.length r2) < n)%Z -> rest = []).
  { intros Hlt. unfold rest. rewrite (H2 Hlt), (H1 ltac:(lia)). reflexivity. }
  assert (Hlr2 : List.length (sort r2) = List.length cands).
  { rewrite (Permutation_length (sort_perm r2)), Er2. apply length_map. }
  intros H. exists (map p_ (sort r2)), (map Id rest).
  assert (Hn : (0 <= n)%Z /\ out = firstn (Z.to_nat n) (map p_ (sort r2))).
  { destruct (Z.ltb_spec n (Z.of_nat (List.length (sort r2)))) as [Hlt|Hge].
    - destruct (Z.ltb_spec n 0); [discriminate|].
      injection H as <-. split; [lia|]. symmetry. apply firstn_map.
    - injection H as <-. split; [lia|].
      rewrite firstn_all2; [reflexivity|rewrite length_map; lia]. }
  destruct Hn as [Hn0 Hout].
  split; [exact Hout|]. split; [|split; [|exact Hn0]].
  - rewrite ListPeers_snapshot.
    transitivity (map Id cands ++ map Id rest); [now apply Permutation_app_tail|].
    rewrite <- map_app. now apply Permutation_map.
  - rewrite length_map, Hlr2. intros Hlt. rewrite Hrest; [reflexivity|].
    rewrite Er2, length_map. exact Hlt.
Qed.

Lemma Size_ListPeers (rt : RoutingTable) : Size rt = Z.of_nat (List.length (ListPeers rt)).
Proof. now rewrite Size_snapshot, ListPeers_snapshot, length_map. Qed.

(** X10. How many peers [NearestPeers] returns.  A call that returns had a
    count that is not negative (the slice expression panics on a negative
    one) and gives [min(count, Size())] ids, all of them listed; on a table
    that lists no id twice it returns no id twice; and when [count] is at
    least the size of the table it returns every listed peer.  So the early
    end of the traversal never leaves the result short. *)
Theorem NearestPeers_returns_min (rt : RoutingTable) (t : ID) (n : Z) (out : list peerID) :
  NearestPeers rt t n = Done out ->
  (0 <= n)%Z /\
  Z.of_nat (List.length out) = Z.min n (Size rt) /\
  (forall x, In x out -> In x (ListPeers rt)) /\
  (NoDup (ListPeers rt) -> NoDup out) /\
  ((Size rt <= n)%Z -> Permutation out (ListPeers rt)).
Proof.
  intros H. destruct (NearestPeers_out _ _ _ _ H) as (l & rest & -> & Hp & Hrest & Hn0).
  assert (Hsz : Size rt = Z.of_nat (List.length l + List.length rest)).
  { now rewrite Size_ListPeers, <- (Permutation_length Hp), length_app. }
  assert (Hshort : (Size rt <= n)%Z -> rest = []).
  { intros Hle. destruct (Z.lt_ge_cases (Z.of_nat (List.length l)) n) as [Hlt|Hge]; auto.
    apply length_zero_iff_nil. lia. }
  split; [exact Hn0|]. split; [|split; [|split]].
  - rewrite length_firstn, Hsz.
    destruct (Z.lt_ge_cases (Z.of_nat (List.length l)) n) as [Hlt|Hge].
    + rewrite (Hrest Hlt). simpl. lia.
    + lia.
  - intros x Hx. apply In_firstn in Hx. apply (Permutation_in _ Hp).
    apply in_or_app. now left.
  - intros Hnd. apply (Permutation_NoDup (Permutation_sym Hp)) in Hnd.
    apply NoDup_app_remove_r in Hnd.
    rewrite <- (firstn_skipn (Z.to_nat n) l) in Hnd.
    now apply NoDup_app_remove_r in Hnd.
  - intros Hle. rewrite (Hshort Hle) in Hp, Hsz. rewrite app_nil_r in Hp.
    rewrite firstn_all2; [exact Hp|]. simpl in Hsz. lia.
Qed.

(** X11. [NearestPeer] finds a peer whenever there is one.  On a table with
    a bucket, and a bucket size for which [make] grants the capacity
    [1 + bucketsize] (it is not negative as an int and not above
    [makeLimit]), the call returns; it returns the empty id when the table
    lists no peer, and a listed peer when the table lists one, also when
    the bucket of the target is empty. *)
Theorem NearestPeer_returns_a_listed_peer (rt : RoutingTable) (t : ID) :
  buckets rt <> [] ->
  (0 <= int (1 + bucketsize rt) <= makeLimit)%Z ->
  exists x,
    NearestPeer rt t = Done x /\
    (ListPeers rt = [] -> x = EmptyString) /\
    (ListPeers rt <> [] -> In x (ListPeers rt)).
Proof.
  intros Hne Hk.
  destruct (NearestPeers_Done rt t 1 Hne ltac:(lia) Hk) as [out H].
  unfold NearestPeer. rewrite H. cbn [bind].
  destruct (NearestPeers_out _ _ _ _ H) as (l & rest & -> & Hp & Hrest & _).
  change (Z.to_nat 1) with 1%nat.
  destruct l as [|x l]; simpl.
  - exists EmptyString. split; [reflexivity|]. split; [reflexivity|].
    intros Hl. exfalso. apply Hl.
    rewrite Hrest in Hp by (simpl; lia). simpl in Hp.
    now apply Permutation_nil in Hp.
  - exists x. split; [reflexivity|]. split.
    + intros E. rewrite E in Hp. apply Permutation_sym, Permutation_nil in Hp.
      discriminate.
    + intros _. apply (Permutation_in _ Hp). now left.
Qed.

(** X12. [Find] returns the peer asked for or nothing.  On a table with a
    bucket, and a bucket size for which [make] grants the capacity
    [1 + bucketsize] (it is not negative as an int and not above
    [makeLimit]), [Find(p)] returns; what it returns is [p], and then [p]
    is listed, or it is the empty id; in particular it is the empty id when
    [p] is not listed.  This holds for any table and any conversion of ids
    to keys. *)
Theorem Find_returns_p_or_nothing (rt : RoutingTable) (p : peerID) :
  buckets rt <> [] ->
  (0 <= int (1 + bucketsize rt) <= makeLimit)%Z ->
  exists x,
    Find rt p = Done x /\
    ((x = p /\ In p (ListPeers rt)) \/ x = EmptyString) /\
    (~ In p (ListPeers rt) -> x = EmptyString).
Proof.
  intros Hne Hk.
  destruct (NearestPeers_Done rt (ConvertPeerID p) 1 Hne ltac:(lia) Hk) as [out H].
  unfold Find. rewrite H. cbn [bind].
  destruct (NearestPeers_out _ _ _ _ H) as (l & rest & -> & Hp & _ & _).
  change (Z.to_nat 1) with 1%nat.
  destruct l as [|x l]; simpl.
  - exists EmptyString. auto.
  - assert (Hx : In x (ListPeers rt)) by (apply (Permutation_in _ Hp); now left).
    destruct (String.eqb_spec x p) as [->|Hxp].
    + exists p. split; [reflexivity|]. split; [auto|]. intros Hno. now apply Hno in Hx.
    + exists EmptyString. auto.
Qed.

(** ** Further properties: a tick of the liveness loop *)

Lemma removePeer_effect (rt : RoutingTable) (p : peerID) :
  buckets rt <> [] ->
  exists rt' evs,
    removePeer rt p = Done (rt', evs) /\
    buckets rt' <> [] /\
    ((rt' = rt /\ evs = []) \/
     (evs = [PeerRemoved p] /\ Size rt' = (Size rt - 1)%Z /\
      In p (ListPeers rt) /\
      (forall x, In x (ListPeers rt') -> In x (ListPeers rt)) /\
      (forall x, In x (ListPeers rt) -> In x (ListPeers rt') \/ x = p))).
Proof.
  intros Hne. destruct (its_bucket rt p Hne) as [b Hb].
  assert (Hret : exists rt' evs, removePeer rt p = Done (rt', evs)).
  { unfold removePeer, index. rewrite Hb. simpl. destruct (remove b p) as [b' [|]]; eauto. }
  destruct Hret as (rt' & evs & H). exists rt', evs. split; [exact H|].
  split.
  { apply removePeer_cases in H as [[-> _]|(b1 & b' & _ & _ & -> & _)]; [exact Hne|].
    cbn [buckets set_buckets]. intros E. apply Hne.
    apply length_zero_iff_nil. rewrite <- (store_length (buckets rt) (bucketIdForPeer rt p) b').
    now rewrite E. }
  destruct (removePeer_ListPeers _ _ _ _ H)
    as [(-> & -> & _)|(-> & pre & l1 & l2 & post & E & E')]; [now left|right].
  split; [reflexivity|]. rewrite !Size_ListPeers, E, E'. split; [|split; [|split]].
  - rewrite !length_app. simpl. lia.
  - apply in_or_app. right. apply in_or_app. left. apply in_or_app. right. now left.
  - intros x Hx.
    apply in_app_or in Hx as [Hx|Hx]; [apply in_or_app; now left|].
    apply in_or_app. right.
    apply in_app_or in Hx as [Hx|Hx]; [|apply in_or_app; now right].
    apply in_or_app. left.
    apply in_app_or in Hx as [Hx|Hx]; apply in_or_app; [now left|right; now right].
  - intros x Hx.
    apply in_app_or in Hx as [Hx|Hx]; [left; apply in_or_app; now left|].
    apply in_app_or in Hx as [Hx|Hx];
      [|left; apply in_or_app; right; apply in_or_app; now right].
    apply in_app_or in Hx as [Hx|[Hx|Hx]]; [left|now right|left];
      apply in_or_app; right; apply in_or_app; left; apply in_or_app; [now left|now right].
Qed.

Lemma visits_effect (lv : nat -> Liveness) (ps : list peerInfo) (i : nat)
    (rt : RoutingTable) :
  buckets rt <> [] ->
  exists rt' evs,
    visits rt lv i ps = Done (rt', evs) /\
    (forall ev, In ev evs -> exists p, ev = PeerRemoved p /\ In p (ListPeers rt)) /\
    Size rt' = (Size rt - Z.of_nat (List.length evs))%Z /\
    (forall x, In x (ListPeers rt') -> In x (ListPeers rt)) /\
    (forall x, In x (ListPeers rt) -> In x (ListPeers rt') \/ In (PeerRemoved x) evs) /\
    ((forall j, pingFails (lv j) = false \/ connected (lv j) = true) ->
     rt' = rt /\ evs = []).
Proof.
  revert i rt; induction ps as [|r ps IH]; intros i rt Hne; simpl.
  { exists rt, []. simpl. repeat split; auto; try lia; intros ev []. }
  assert (Hv : exists rt1 ev1,
             visit rt (lv i) r = Done (rt1, ev1) /\ buckets rt1 <> [] /\
             ((rt1 = rt /\ ev1 = []) \/
              (pingFails (lv i) = true /\ connected (lv i) = false /\
               ev1 = [PeerRemoved (Id r)] /\ Size rt1 = (Size rt - 1)%Z /\
               In (Id r) (ListPeers rt) /\
               (forall x, In x (ListPeers rt1) -> In x (ListPeers rt)) /\
               (forall x, In x (ListPeers rt) -> In x (ListPeers rt1) \/ x = Id r)))).
  { unfold visit.
    destruct (_ <? _)%Z; [|exists rt, []; auto].
    destruct (pingFails (lv i)) eqn:Hping; [|exists rt, []; auto].
    destruct (connected (lv i)) eqn:Hconn; simpl; [exists rt, []; auto|].
    destruct (removePeer_effect rt (Id r) Hne) as (rt1 & ev1 & H1 & Hne1 & Hc).
    exists rt1, ev1. split; [exact H1|]. split; [exact Hne1|].
    destruct Hc as [Hc|(-> & Hc)]; [now left|right]. auto. }
  destruct Hv as (rt1 & ev1 & H1 & Hne1 & Hc). rewrite H1. cbn [bind].
  destruct (IH (S i) rt1 Hne1) as (rt2 & ev2 & H2 & Hev & Hsz & Hsub & Hkept & Hquiet).
  rewrite H2. cbn [bind]. exists rt2, (ev1 ++ ev2). split; [reflexivity|].
  destruct Hc as [(-> & ->)|(Hping & Hconn & -> & Hs1 & Hin & Hsub1 & Hkept1)].
  - simpl. auto 10.
  - split; [|split; [|split; [|split]]].
    + intros ev [<-|Hin2]; [eauto|].
      destruct (Hev ev Hin2) as (p & -> & Hp). eauto.
    + simpl List.length. lia.
    + auto.
    + intros x Hx. destruct (Hkept1 x Hx) as [Hx1| ->]; [|right; now left].
      destruct (Hkept x Hx1) as [Hx2|Hx2]; [now left|right; now right].
    + intros Hq. destruct (Hq i) as [Hq'|Hq']; congruence.
Qed.

(** X13. One tick of the liveness loop, with nothing else running.  On a
    table with a bucket the tick returns (no visit panics); every callback
    it fires is [PeerRemoved] for a peer that was listed, the size drops by
    the number of callbacks, no peer appears, and every peer that
    disappears was announced by a [PeerRemoved]; and when at every visit
    the ping succeeds or the peer is connected, the tick changes nothing. *)
Theorem background_tick_accounts (rt : RoutingTable) (lv : nat -> Liveness) :
  buckets rt <> [] ->
  exists rt' evs,
    background rt lv = Done (rt', evs) /\
    (forall ev, In ev evs -> exists p, ev = PeerRemoved p /\ In p (ListPeers rt)) /\
    Size rt' = (Size rt - Z.of_nat (List.length evs))%Z /\
    (forall x, In x (ListPeers rt') -> In x (ListPeers rt)) /\
    (forall x, In x (ListPeers rt) -> In x (ListPeers rt') \/ In (PeerRemoved x) evs) /\
    ((forall j, pingFails (lv j) = false \/ connected (lv j) = true) ->
     rt' = rt /\ evs = []).
Proof.
  intros Hne. unfold background.
  destruct (visits_effect lv (snapshot rt) 0 rt Hne) as (rt' & evs & H & Hrest).
  exists rt', evs. split; [exact H|exact Hrest].
Qed.

(** ** Further properties: [TryAddPeer] returns *)

Lemma nextBucket_returns (fuel : nat) (rt : RoutingTable) :
  buckets rt <> [] -> (1 <= bucketsize rt)%Z ->
  (W - (List.length (buckets rt) - 1) < fuel)%nat ->
  exists rt', nextBucket fuel rt = Done rt'.
Proof.
  revert rt; induction fuel as [|fuel IH]; intros rt Hne Hk Hf; [lia|].
  destruct (splitLast_Done rt Hne) as (rt1 & nb & Hs).
  simpl nextBucket. rewrite Hs. cbn [bind].
  destruct (splitLast_length _ _ _ _ Hs) as [Hlen _].
  pose proof (splitLast_bucketsize _ _ _ Hs) as Hbs.
  destruct (Z.leb_spec (bucketsize rt1) (len nb)) as [Hfull|Hroom]; [|eauto].
  destruct nb as [|r nb]; [unfold len in Hfull; simpl in Hfull; lia|].
  pose proof (splitLast_new_deeper _ _ _ r Hs (or_introl eq_refl)) as Hd.
  pose proof (CommonPrefixLen_le (dhtId r) (local rt)) as Hw.
  assert (Hm : (1 <= List.length (buckets rt))%nat).
  { destruct (buckets rt); [congruence|simpl; lia]. }
  apply IH; [|lia|lia].
  intros E. rewrite E in Hlen. discriminate.
Qed.

(** X14. [TryAddPeer] returns, and what it returns has one of two shapes.
    On a table with a bucket and a bucket size of at least one, the call
    returns (no index is out of range and the unfolding ends): either
    [true] with no error and exactly one callback, [PeerAdded(p)], or
    [false] with no callback at all.  It returns [(false, nil)] exactly
    when [p] is already in its bucket, and then the table is untouched.
    [PeerRemoved] is never fired. *)
Theorem TryAddPeer_returns (fuel : nat) (e : Env) (rt : RoutingTable) (p : peerID)
    (queryPeer : bool) :
  buckets rt <> [] ->
  (1 <= bucketsize rt)%Z ->
  (W < fuel)%nat ->
  exists rt' evs res b0,
    TryAddPeer fuel e rt p queryPeer = Done (rt', evs, res) /\
    nth_error (buckets rt) (bucketIdForPeer rt p) = Some b0 /\
    ((res = (true, None) /\ evs = [PeerAdded p]) \/ (fst res = false /\ evs = [])) /\
    (res = (false, None) <-> In p (peerIds b0)) /\
    (res = (false, None) -> rt' = rt).
Proof.
  intros Hne Hk Hf.
  destruct (its_bucket rt p Hne) as [b0 Hb0].
  assert (Hret : exists r, addPeer fuel e rt p queryPeer = Done r).
  { unfold addPeer, index. rewrite Hb0. cbn [bind].
    destruct (getPeer b0 p); [eauto|].
    destruct (_ <? _)%Z; [eauto|].
    destruct (_ <? _)%Z; [eauto|].
    destruct (_ =? _)%nat; [|eauto].
    destruct (nextBucket_returns fuel rt Hne Hk ltac:(lia)) as [rt1 H1].
    rewrite H1. cbn [bind].
    destruct (its_bucket rt1 p (nextBucket_nonempty _ _ _ H1)) as [b1 Hb1].
    rewrite Hb1. cbn [bind]. destruct (_ <? _)%Z; eauto. }
  destruct Hret as [[[rt' evs] res] H]. exists rt', evs, res, b0.
  split; [exact H|]. split; [exact Hb0|].
  apply addPeer_inv in H as (b & Hb & Hc).
  rewrite Hb0 in Hb. injection Hb as <-.
  destruct Hc as [(Hg & -> & -> & ->)|[(Hg & _ & -> & -> & ->)|(Hg & _ & rtX & _ & Hc)]].
  - split; [right; auto|]. split; [|reflexivity].
    split; [intros _|reflexivity].
    destruct (in_dec string_dec p (peerIds b0)) as [Hin|Hout]; [exact Hin|].
    now apply getPeer_None in Hout.
  - apply getPeer_None in Hg. split; [right; auto|].
    split; [split; [discriminate|contradiction]|discriminate].
  - apply getPeer_None in Hg.
    destruct Hc as [(b & b' & _ & -> & ->)|(b & _ & _ & _ & _ & -> & ->)].
    + split; [left; auto|]. split; [split; [discriminate|contradiction]|discriminate].
    + split; [right; auto|]. split; [split; [discriminate|contradiction]|discriminate].
Qed.

(** ** Further properties: a bucket size that is not positive *)

Lemma hollow_addPeer (fuel : nat) (e : Env) (rt : RoutingTable) (p : peerID)
    (queryPeer : bool) :
  buckets rt = [[]] -> (bucketsize rt <= 0)%Z ->
  addPeer fuel e rt p queryPeer
  = if (maxLatency rt <? LatencyEWMA e p)%Z
    then Done (rt, [], (false, Some ErrPeerRejectedHighLatency))
    else OutOfFuel.
Proof.
  intros Hb Hk.
  assert (Hid : bucketIdForPeer rt p = 0%nat).
  { rewrite bucketIdForPeer_min, Hb. simpl. lia. }
  unfold addPeer, index. rewrite Hid, Hb. simpl.
  destruct (_ <? _)%Z; [reflexivity|].
  destruct (Z.ltb_spec (len []) (bucketsize rt)) as [Hlt|_];
    [unfold len in Hlt; simpl in Hlt; lia|].
  rewrite nextBucket_diverges; [reflexivity| |exact Hk].
  rewrite Hb. discriminate.
Qed.

(** X15. A table made with a bucket size that is not positive never holds
    a peer.  [NewRoutingTable] accepts such a size; in every state the
    operations lead to from there the table still is the one empty bucket,
    and a call of [TryAddPeer] either rejects the peer for its latency or
    never returns: the empty bucket counts as full, and [nextBucket]
    unfolds for ever. *)
Theorem nonpositive_bucketsize_holds_no_peer (rt : RoutingTable) :
  reachable rt ->
  (bucketsize rt <= 0)%Z ->
  buckets rt = [[]] /\ ListPeers rt = [] /\
  forall fuel e p queryPeer,
    TryAddPeer fuel e rt p queryPeer
    = if (maxLatency rt <? LatencyEWMA e p)%Z
      then Done (rt, [], (false, Some ErrPeerRejectedHighLatency))
      else OutOfFuel.
Proof.
  intros Hr Hk.
  assert (Hb : buckets rt = [[]]).
  { induction Hr as [k l lat thr int ping conn rt H
                    |rt fuel e p q rt' evs res Hr IH H
                    |rt p rt' evs Hr IH H
                    |rt p t rt' ok Hr IH H
                    |rt lv ps rt' evs Hr IH H].
    - unfold NewRoutingTable in H. destruct ping, conn; try discriminate.
      now injection H as <-.
    - destruct (addPeer_set_buckets _ _ _ _ _ _ _ _ H) as [bs E].
      assert (Hk0 : (bucketsize rt <= 0)%Z) by (rewrite E in Hk; exact Hk).
      unfold TryAddPeer in H. rewrite (hollow_addPeer _ _ _ _ _ (IH Hk0) Hk0) in H.
      destruct (_ <? _)%Z; [|discriminate]. injection H as <- _ _. auto.
    - apply removePeer_cases in H as [[-> _]|(b & b' & Hnb & Hrm & -> & _)]; [auto|].
      specialize (IH Hk). exfalso. rewrite IH in Hnb.
      destruct (bucketIdForPeer rt p) as [|[|i]]; simpl in Hnb; try discriminate.
      injection Hnb as <-. simpl in Hrm. discriminate.
    - apply Update_cases in H as [[-> _]|(b & Hnb & -> & _)]; [auto|].
      specialize (IH Hk). cbn [buckets set_buckets]. rewrite IH in *.
      destruct (bucketIdForPeer rt p) as [|[|i]]; simpl in Hnb; try discriminate.
      now injection Hnb as <-.
    - apply visit_cases in H as [[-> _]|(_ & _ & H)]; [auto|].
      apply removePeer_cases in H as [[-> _]|(b & b' & Hnb & Hrm & -> & _)]; [auto|].
      specialize (IH Hk). exfalso. rewrite IH in Hnb.
      destruct (bucketIdForPeer rt (Id ps)) as [|[|i]]; simpl in Hnb; try discriminate.
      injection Hnb as <-. simpl in Hrm. discriminate. }
  split; [exact Hb|]. split.
  - rewrite ListPeers_flat_map, Hb. reflexivity.
  - intros fuel e p q. exact (hollow_addPeer _ _ _ _ _ Hb Hk).
Qed.

(** ** Round trip *)

Lemma addPeer_nonempty (fuel : nat) (e : Env) (rt : RoutingTable) (p : peerID)
    (queryPeer : bool) (rt' : RoutingTable) (evs : list event) (res : bool * option error) :
  addPeer fuel e rt p queryPeer = Done (rt', evs, res) -> buckets rt' <> [].
Proof.
  intros H. apply addPeer_inv in H as (b0 & Hb0 & H).
  assert (Hne : buckets rt <> []).
  { intros E. rewrite E in Hb0. destruct (bucketIdForPeer rt p); discriminate. }
  destruct H as [(_ & -> & _)|[(_ & _ & -> & _)|(_ & _ & rtX & HX & H)]]; auto.
  assert (HneX : buckets rtX <> []).
  { destruct HX as [->|[_ HX]]; [exact Hne|exact (nextBucket_nonempty _ _ _ HX)]. }
  destruct H as [(b & b' & (_ & _ & ->) & _)|(b & _ & _ & _ & -> & _)]; auto.
  cbn [buckets set_buckets]. intros E. apply HneX.
  apply length_zero_iff_nil.
  rewrite <- (store_length (buckets rtX) (bucketIdForPeer rtX p)
                (pushFront (entry e p queryPeer) b')).
  now rewrite E.
Qed.

(** C5, as amended.  [TryAddPeer(p, true)] and then [RemovePeer(p)]: the
    second call returns whenever the first has.  When the first admits [p]
    into a free place (it returns [(true, nil)] and [Size] grows by one: no
    stale record was evicted for it), the second returns [Size] to its
    value before the pair, and the pair fires [PeerAdded(p)] once and
    [PeerRemoved(p)] once.  In a state the operations lead to: when [p] is
    already listed, the first call is a no-op that returns [(false, nil)],
    the second removes the record, [Size] drops by one and the pair fires
    [PeerRemoved(p)] only; and when the first call rejects [p] with an
    error, neither call changes [Size] or fires a callback. *)
Theorem add_then_remove (fuel : nat) (e : Env) (rt : RoutingTable) (p : peerID)
    (rt1 : RoutingTable) (ev1 : list event) (res : bool * option error) :
  TryAddPeer fuel e rt p true = Done (rt1, ev1, res) ->
  exists rt2 ev2,
    RemovePeer rt1 p = Done (rt2, ev2) /\
    (res = (true, None) -> Size rt1 = (Size rt + 1)%Z ->
     Size rt2 = Size rt /\ ev1 ++ ev2 = [PeerAdded p; PeerRemoved p]) /\
    (reachable rt -> In p (ListPeers rt) ->
     res = (false, None) /\ rt1 = rt /\
     Size rt2 = (Size rt - 1)%Z /\ ev1 ++ ev2 = [PeerRemoved p]) /\
    (reachable rt -> forall err, res = (false, Some err) ->
     Size rt1 = Size rt /\ Size rt2 = Size rt /\ ev1 ++ ev2 = []).
Proof.
  intros H. unfold TryAddPeer in H.
  pose proof (addPeer_nonempty _ _ _ _ _ _ _ _ H) as Hne1.
  destruct (removePeer_effect rt1 p Hne1) as (rt2 & ev2 & H2 & _ & _).
  exists rt2, ev2. split; [exact H2|].
  apply addPeer_inv in H as (b0 & Hb0 & H).
  split; [|split].
  - intros -> Hsize.
    destruct H as [(_ & _ & _ & H)|[(_ & _ & _ & _ & H)|H]]; try discriminate.
    destruct H as (_ & _ & rtX & _ & [(b & b' & Hp & -> & _)|(b & _ & _ & _ & _ & _ & H)]);
      [|discriminate].
    destruct Hp as (Hb & _ & E).
    assert (Hi : (bucketIdForPeer rtX p < List.length (buckets rtX))%nat).
    { apply nth_error_Some. congruence. }
    assert (Hid : bucketIdForPeer rt1 p = bucketIdForPeer rtX p).
    { rewrite E. apply bucketIdForPeer_set_buckets. apply store_length. }
    assert (Hb1 : nth_error (buckets rt1) (bucketIdForPeer rt1 p)
                  = Some (pushFront (entry e p true) b')).
    { rewrite Hid, E. cbn [buckets set_buckets]. now apply nth_error_store_same. }
    assert (H2' : removePeer rt1 p
                  = Done (set_buckets rt1 (store (buckets rt1) (bucketIdForPeer rt1 p) b'),
                          [PeerRemoved p])).
    { unfold removePeer, index. rewrite Hb1. cbn [bind].
      change p with (Id (entry e p true)) at 1.
      rewrite remove_pushFront. reflexivity. }
    rewrite H2' in H2. injection H2 as <- <-. split; [|reflexivity].
    rewrite (Size_store rt1 _ _ _ Hb1). unfold len, pushFront. cbn [List.length]. lia.
  - intros Hr Hin.
    pose proof (reachable_well_formed _ Hr) as Hwf.
    destruct (listed_in_its_bucket _ _ Hwf Hin) as (b & Hb & Hpb).
    rewrite Hb0 in Hb. injection Hb as <-.
    assert (Hg : getPeer b0 p <> None).
    { intros Hg. now apply getPeer_None in Hg. }
    destruct H as [(_ & -> & -> & ->)|[(Hg' & _)|(Hg' & _)]]; try contradiction.
    split; [reflexivity|]. split; [reflexivity|].
    destruct (removePeer_ListPeers _ _ _ _ H2)
      as [(_ & _ & b1 & Hb1 & Hout)|(-> & pre & l1 & l2 & post & E & E')].
    { rewrite Hb0 in Hb1. injection Hb1 as <-. contradiction. }
    split; [|reflexivity].
    rewrite !Size_ListPeers, E, E', !length_app. simpl. lia.
  - intros Hr err ->.
    pose proof (reachable_well_formed _ Hr) as Hwf.
    assert (Hno : getPeer b0 p = None -> ~ In p (ListPeers rt)).
    { intros Hg Hin. destruct (listed_in_its_bucket _ _ Hwf Hin) as (b & Hb & Hpb).
      rewrite Hb0 in Hb. injection Hb as <-. now apply getPeer_None in Hg. }
    assert (Hsame : Permutation (snapshot rt1) (snapshot rt) /\ ev1 = []).
    { destruct H as [(_ & _ & _ & H)|[(_ & _ & -> & -> & _)|H]];
        [discriminate|split; reflexivity|].
      destruct H as (_ & _ & rtX & HX & [(b & b' & _ & _ & H)|(b & _ & _ & _ & -> & -> & _)]);
        [discriminate|].
      split; [|reflexivity].
      destruct HX as [->|[_ HX]]; [reflexivity|exact (nextBucket_snapshot _ _ _ HX)]. }
    destruct Hsame as [Hperm ->].
    assert (Hg : getPeer b0 p = None).
    { destruct H as [(_ & _ & _ & H)|[(Hg & _)|(Hg & _)]]; [discriminate|exact Hg|exact Hg]. }
    assert (Hno1 : ~ In p (ListPeers rt1)).
    { intros Hin. apply (Hno Hg).
      exact (Permutation_in _ (snapshot_perm_ListPeers _ _ Hperm) Hin). }
    rewrite (removePeer_absent _ _ Hne1 Hno1) in H2. injection H2 as <- <-.
    pose proof (snapshot_perm_Size _ _ Hperm) as Hs. auto.
Qed.

End Properties.

Local Open Scope string_scope.

(** ** The four-bit tables: where they come from *)

Lemma key4_fits (p : peerID) : fits 4 (key4 p).
Proof. unfold fits, key4. apply N.mod_lt. discriminate. Qed.

Lemma fresh_reachable (k : Z) : reachable 4 key4 (table4 k hour [[]]).
Proof.
  apply (reachable_New 4 key4 k 0%N 100%Z hour 3000%Z
           (Some (fun _ => false)) (Some (fun _ => true))).
  reflexivity.
Defined.

Lemma pair_table_reachable : reachable 4 key4 pair_table.
Proof.
  apply (reachable_TryAddPeer 4 key4 (table4 2 hour [[queried "1000"]]) 0 env2020
           "0100" true pair_table [PeerAdded "0100"] (true, None)); [|reflexivity].
  apply (reachable_TryAddPeer 4 key4 (table4 2 hour [[]]) 0 env2020
           "1000" true _ [PeerAdded "1000"] (true, None)); [|reflexivity].
  apply fresh_reachable.
Defined.

Lemma chain_table_reachable : reachable 4 key4 chain_table.
Proof.
  apply (reachable_TryAddPeer 4 key4 (table4 1 hour [[queried "0100"]]) 5 env2020
           "0010" true chain_table [PeerAdded "0010"] (true, None)); [|reflexivity].
  apply (reachable_TryAddPeer 4 key4 (table4 1 hour [[]]) 0 env2020
           "0100" true _ [PeerAdded "0100"] (true, None)); [|reflexivity].
  apply fresh_reachable.
Defined.

Lemma full_table_reachable : reachable 4 key4 full_table.
Proof.
  apply (reachable_TryAddPeer 4 key4 (table4 2 hour [[unqueried "1000"]]) 0 env2020
           "1100" true full_table [PeerAdded "1100"] (true, None)); [|reflexivity].
  apply (reachable_TryAddPeer 4 key4 (table4 2 hour [[]]) 0 env2020
           "1000" false _ [PeerAdded "1000"] (true, None)); [|reflexivity].
  apply fresh_reachable.
Defined.

(** ** Scenarios of section 8 *)

(** S2: a latency above the limit is rejected and the table is unchanged. *)
Example latency_rejection :
  TryAddPeer 4 key4 0 envSlow (table4 2 hour [[]]) "1000" false
  = Done (table4 2 hour [[]], [], (false, Some ErrPeerRejectedHighLatency)).
Proof. reflexivity. Qed.

(** S3: the bucket is full, nothing can be unfolded out of it and every
    record is fresh: no capacity.  The unfolding has appended a bucket. *)
Example full_bucket_all_fresh :
  TryAddPeer 4 key4 5 env2020 (table4 2 hour [[queried "1100"; queried "1000"]])
    "1010" true
  = Done (table4 2 hour [[queried "1100"; queried "1000"]; []],
          [], (false, Some ErrPeerRejectedNoCapacity)).
Proof. reflexivity. Qed.

(** S5: local [0000], table [0001, 0011, 1000, 1100]; the two peers nearest
    to [0010] are [0011] and [0001], in this order. *)
Example nearest_ordering :
  NearestPeers 4 limit32
    (table4 2 hour [[queried "1100"; queried "1000"]; []; [queried "0011"];
                    [queried "0001"]])
    (key4 "0010") 2
  = Done ["0011"; "0001"].
Proof. reflexivity. Qed.

(** ** C1: the local peer *)

(** C1, counterexample.  On a fresh table of local key [0000], the id of
    that key is admitted. *)
Lemma local_peer_admitted_on_fresh_table :
  key4 "0000" = local (table4 2 hour [[]]) /\
  TryAddPeer 4 key4 0 env2020 (table4 2 hour [[]]) "0000" true
  = Done (table4 2 hour [[queried "0000"]], [PeerAdded "0000"], (true, None)) /\
  In "0000" (ListPeers (table4 2 hour [[queried "0000"]])) /\
  ~ self_excluded 4 key4 "0000" (table4 2 hour [[]]).
Proof.
  split; [reflexivity|]. split; [reflexivity|]. split; [simpl; auto|].
  intros [H _].
  specialize (H 0%nat env2020 true _ _ _ eq_refl). discriminate.
Qed.

(** C1, an instance: the local id [0000], not queried, on a fresh table. *)
Lemma local_peer_is_admitted_witness :
  exists rt',
    TryAddPeer 4 key4 0 env2020 (table4 2 hour [[]]) "0000" false
    = Done (rt', [PeerAdded "0000"], (true, None)) /\
    nth_error (buckets rt') 0 = Some [unqueried "0000"] /\
    In "0000" (ListPeers rt').
Proof.
  apply (local_peer_is_admitted 4 key4 0 env2020 (table4 2 hour [[]]) "0000" false []).
  - reflexivity.
  - reflexivity.
  - reflexivity.
  - simpl. lia.
  - reflexivity.
Defined.

(** ** C2: the split *)

(** C2, counterexample.  On the table whose only bucket holds [0100] and
    [1000], [split] leaves [1000] and returns [0100], not the other way
    round; the split as section 4.3 words it breaks the assignment
    invariant; and no split function does all that the claim says: the
    record [0100], which shares one bit with the local key, would remain in
    bucket 0 of a table of two buckets, where the assignment invariant wants
    it in bucket 1. *)
Lemma split_claim_is_inconsistent :
  reachable 4 key4 pair_table /\
  splitLast (split 4) pair_table
  = Done (table4 2 hour [[queried "1000"]; [queried "0100"]], [queried "0100"]) /\
  splitLast (split_as_worded 4) pair_table
  = Done (table4 2 hour [[queried "0100"]; [queried "1000"]], [queried "1000"]) /\
  ~ assigned 4 (table4 2 hour [[queried "0100"]; [queried "1000"]]) /\
  ~ (exists sp, split_as_claimed 4 sp pair_table).
Proof.
  split; [exact pair_table_reachable|].
  split; [reflexivity|]. split; [reflexivity|]. split.
  { intros Ha. specialize (Ha 0%nat _ (queried "0100") eq_refl (or_introl eq_refl)).
    vm_compute in Ha. discriminate. }
  intros (sp & H). unfold split_as_claimed in H.
  destruct (sp 0%nat 0%N [queried "0100"; queried "1000"]) as [kept nb] eqn:E.
  specialize (H [queried "0100"; queried "1000"]
                (set_buckets pair_table ([kept] ++ [nb])) nb eq_refl).
  unfold splitLast in H. cbn in H. rewrite E in H.
  destruct (H eq_refl) as (H0 & _ & Ha).
  specialize (Ha 0%nat _ (queried "0100") H0 (or_introl eq_refl)).
  vm_compute in Ha. discriminate.
Qed.

(** C2, an instance: the split of [pair_table] leaves [1000] in bucket 0
    and puts [0100] in bucket 1. *)
Lemma splitLast_keeps_assignment_witness :
  nth_error (buckets (table4 2 hour [[queried "1000"]; [queried "0100"]])) 0
  = Some (filter (fun r => (CommonPrefixLen 4 (dhtId r) 0%N =? 0)%nat)
            [queried "0100"; queried "1000"]) /\
  nth_error (buckets (table4 2 hour [[queried "1000"]; [queried "0100"]])) 1
  = Some (filter (fun r => (1 <=? CommonPrefixLen 4 (dhtId r) 0%N)%nat)
            [queried "0100"; queried "1000"]) /\
  assigned 4 (table4 2 hour [[queried "1000"]; [queried "0100"]]).
Proof.
  destruct (splitLast_keeps_assignment 4 pair_table
              (table4 2 hour [[queried "1000"]; [queried "0100"]])
              [queried "0100"; queried "1000"] [queried "0100"])
    as (H0 & H1 & _ & Ha & _).
  - exact (proj1 (proj2 (reachable_well_formed 4 key4 pair_table pair_table_reachable))).
  - reflexivity.
  - reflexivity.
  - split; [exact H0|]. split; [exact H1|]. exact Ha.
Defined.

(** ** C3: eviction of a stale record *)

(** C3, at the failing input.  The bucket is full, [1000] was never
    queried; [TryAddPeer(1010, true)] evicts [1000] and admits [1010], and
    the only event is [PeerAdded(1010)]: [PeerRemoved(1000)] is not fired. *)
Lemma stale_eviction_fires_no_PeerRemoved :
  reachable 4 key4 full_table /\
  stale hour (now env2020) (unqueried "1000") = true /\
  TryAddPeer 4 key4 5 env2020 full_table "1010" true
  = Done (table4 2 hour [[queried "1010"; queried "1100"]; []],
          [PeerAdded "1010"], (true, None)).
Proof.
  split; [exact full_table_reachable|]. split; reflexivity.
Qed.

(** ** C4: nearest peers *)



(** ** C5: round trip *)

(** C5, counterexample.  [1000] is in the table already: [TryAddPeer] is a
    no-op, [RemovePeer] removes the record, [Size] goes from 1 to 0 and no
    [PeerAdded] is fired. *)
Lemma round_trip_fails_when_present :
  reachable 4 key4 (table4 2 hour [[queried "1000"]]) /\
  ~ round_trip_as_claimed 4 key4 0 env2020 (table4 2 hour [[queried "1000"]]) "1000".
Proof.
  split.
  - apply (reachable_TryAddPeer 4 key4 (table4 2 hour [[]]) 0 env2020
             "1000" true _ [PeerAdded "1000"] (true, None)); [|reflexivity].
    apply fresh_reachable.
  - intros H.
    destruct (H (table4 2 hour [[queried "1000"]]) [] (false, None)
                (table4 2 hour [[]]) [PeerRemoved "1000"] eq_refl eq_refl) as (Hs & _).
    vm_compute in Hs. discriminate.
Qed.

(** C5, three instances: [1000] is added to a fresh table and removed;
    [1000] is in the table already; [1000] is rejected for its latency. *)
Lemma add_then_remove_witness :
  (exists rt2 ev2,
     RemovePeer 4 key4 (table4 2 hour [[queried "1000"]]) "1000" = Done (rt2, ev2) /\
     Size rt2 = Size (table4 2 hour [[]]) /\
     ([PeerAdded "1000"] ++ ev2)%list = [PeerAdded "1000"; PeerRemoved "1000"]) /\
  (exists rt2 ev2,
     RemovePeer 4 key4 (table4 2 hour [[queried "1000"]]) "1000" = Done (rt2, ev2) /\
     Size rt2 = (Size (table4 2 hour [[queried "1000"]]) - 1)%Z /\
     ([] ++ ev2)%list = [PeerRemoved "1000"]) /\
  (exists rt2 ev2,
     RemovePeer 4 key4 (table4 2 hour [[]]) "1000" = Done (rt2, ev2) /\
     Size rt2 = Size (table4 2 hour [[]]) /\
     ([] ++ ev2)%list = []).
Proof.
  split; [|split].
  - destruct (add_then_remove 4 key4 0 env2020 (table4 2 hour [[]]) "1000"
                (table4 2 hour [[queried "1000"]]) [PeerAdded "1000"] (true, None)
                eq_refl) as (rt2 & ev2 & H2 & Hfree & _).
    exists rt2, ev2. split; [exact H2|].
    apply Hfree; reflexivity.
  - destruct (add_then_remove 4 key4 0 env2020 (table4 2 hour [[queried "1000"]]) "1000"
                (table4 2 hour [[queried "1000"]]) [] (false, None)
                eq_refl) as (rt2 & ev2 & H2 & _ & Hthere & _).
    exists rt2, ev2. split; [exact H2|].
    destruct Hthere as (_ & _ & Hs & Hev).
    + apply (reachable_TryAddPeer 4 key4 (table4 2 hour [[]]) 0 env2020
               "1000" true _ [PeerAdded "1000"] (true, None)); [|reflexivity].
      apply fresh_reachable.
    + simpl. auto.
    + auto.
  - destruct (add_then_remove 4 key4 0 envSlow (table4 2 hour [[]]) "1000"
                (table4 2 hour [[]]) [] (false, Some ErrPeerRejectedHighLatency)
                eq_refl) as (rt2 & ev2 & H2 & _ & _ & Hrej).
    exists rt2, ev2. split; [exact H2|].
    destruct (Hrej (fresh_reachable 2) ErrPeerRejectedHighLatency eq_refl)
      as (_ & Hs & Hev).
    auto.
Defined.

(** ** C6: the age of a record never queried *)

(** C6, counterexample.  Against the threshold [2^63] nanoseconds a record
    never queried is not stale, in 2020 as at any time. *)
Lemma never_queried_not_stale_at_2p63 :
  stale 0x1p63 (now env2020) (unqueried "1000") = false /\
  stale infinity (now env2020) (unqueried "1000") = false /\
  ~ never_queried_is_stale (now env2020).
Proof.
  split; [reflexivity|]. split; [reflexivity|].
  intros H. specialize (H 0x1p63%float (unqueried "1000") eq_refl).
  vm_compute in H. discriminate.
Qed.

(** C6, an instance: in 2020, against a threshold of one hour. *)
Lemma never_queried_stale_below_witness :
  stale hour (now env2020) (unqueried "1000") = true.
Proof.
  rewrite (never_queried_stale_below (now env2020) hour (unqueried "1000")).
  - reflexivity.
  - reflexivity.
  - unfold maxDuration. simpl. lia.
Defined.

(** ** C7: capacity *)

(** C7, counterexample.  With bucket size [-1] the fresh table has a last
    bucket of length 0, above the bucket size, and an admission that is
    rejected for its latency returns on that table. *)
Lemma capacity_fails_below_zero :
  reachable 4 key4 (table4 (-1) hour [[]]) /\
  TryAddPeer 4 key4 0 envSlow (table4 (-1) hour [[]]) "1000" true
  = Done (table4 (-1) hour [[]], [], (false, Some ErrPeerRejectedHighLatency)) /\
  ~ capacity_as_claimed 4 key4 (table4 (-1) hour [[]]).
Proof.
  split; [apply fresh_reachable|]. split; [reflexivity|].
  intros [_ H].
  specialize (H 0%nat envSlow "1000" true _ _ _ [] eq_refl eq_refl).
  vm_compute in H. apply H. reflexivity.
Qed.

(** C7, an instance: [pair_table], of bucket size two. *)
Lemma capacity_invariant_witness :
  within_capacity pair_table /\
  forall fuel e p queryPeer rt' evs res,
    TryAddPeer 4 key4 fuel e pair_table p queryPeer = Done (rt', evs, res) ->
    within_capacity rt'.
Proof.
  apply (capacity_invariant 4 key4 pair_table).
  - exact pair_table_reachable.
  - simpl. lia.
Defined.

(** ** C8: termination *)

(** C8, counterexample.  With bucket size 0 the appended bucket is always
    full, and [nextBucket] splits again, with any fuel; so the first
    [TryAddPeer] on a fresh table does not return. *)
Lemma unfold_diverges_at_zero :
  reachable 4 key4 (table4 0 hour [[]]) /\
  (forall fuel, nextBucket 4 fuel (table4 0 hour [[]]) = OutOfFuel) /\
  (forall fuel, TryAddPeer 4 key4 fuel env2020 (table4 0 hour [[]]) "1000" true
                = OutOfFuel) /\
  ~ unfold_returns 4 (table4 0 hour [[]]).
Proof.
  split; [apply fresh_reachable|].
  assert (Hd : forall fuel, nextBucket 4 fuel (table4 0 hour [[]]) = OutOfFuel).
  { intros fuel. apply nextBucket_diverges; [discriminate | simpl; lia]. }
  split; [exact Hd|]. split.
  { intros fuel. unfold TryAddPeer, addPeer. cbn. rewrite Hd. reflexivity. }
  intros (fuel & rt' & b & H & _).
  rewrite (nextBucket_diverges 4 fuel (table4 0 hour [[]])) in H.
  - discriminate.
  - discriminate.
  - simpl. lia.
Qed.

(** C8, an instance: [full_table], fuel 5 for keys of four bits. *)
Lemma nextBucket_terminates_witness :
  exists rt' b,
    nextBucket 4 5 full_table = Done rt' /\
    lastBucket rt' = Some b /\ (len b < bucketsize rt')%Z /\
    (List.length (buckets full_table) < List.length (buckets rt')
     <= Nat.max (S (List.length (buckets full_table))) (4 + 2))%nat.
Proof.
  apply (nextBucket_terminates 4 full_table 5).
  - discriminate.
  - simpl. lia.
  - lia.
Defined.

(** ** C10: [Find] *)



(** ** Instances of the further properties *)

(** X2, an instance: [pair_table] unfolds into [unfolded_pair_table]. *)
Lemma nextBucket_keeps_the_peers_witness :
  Permutation (ListPeers unfolded_pair_table) (ListPeers pair_table) /\
  Size unfolded_pair_table = Size pair_table /\
  (List.length (buckets pair_table) < List.length (buckets unfolded_pair_table))%nat.
Proof.
  apply (nextBucket_keeps_the_peers 4 5 pair_table unfolded_pair_table).
  reflexivity.
Defined.

(** X3, an instance: [1000] is admitted into the fresh table, and not again. *)
Lemma TryAddPeer_twice_witness :
  TryAddPeer 4 key4 0 envSlow (table4 2 hour [[queried "1000"]]) "1000" false
  = Done (table4 2 hour [[queried "1000"]], [], (false, None)).
Proof.
  apply (TryAddPeer_twice 4 key4 0 env2020 (table4 2 hour [[]]) "1000" true
           (table4 2 hour [[queried "1000"]]) [PeerAdded "1000"] 0 envSlow false).
  reflexivity.
Defined.

(** X4, an instance: the scenario S3, a full bucket of fresh records. *)
Lemma TryAddPeer_rejection_witness :
  false = false /\ @nil event = [] /\
  Permutation
    (ListPeers (table4 2 hour [[queried "1100"; queried "1000"]; []]))
    (ListPeers (table4 2 hour [[queried "1100"; queried "1000"]])) /\
  Size (table4 2 hour [[queried "1100"; queried "1000"]; []])
  = Size (table4 2 hour [[queried "1100"; queried "1000"]]) /\
  ((LatencyEWMA env2020 "1010" <= 100)%Z /\
   exists b,
     nth_error [[queried "1100"; queried "1000"]; []]
       (bucketIdForPeer 4 key4
          (table4 2 hour [[queried "1100"; queried "1000"]; []]) "1010") = Some b /\
     (2 <= len b)%Z /\
     forall r, In r b -> stale hour (now env2020) r = false).
Proof.
  apply (TryAddPeer_rejection 4 key4 5 env2020
           (table4 2 hour [[queried "1100"; queried "1000"]]) "1010" true
           (table4 2 hour [[queried "1100"; queried "1000"]; []]) [] false
           ErrPeerRejectedNoCapacity).
  reflexivity.
Defined.

(** X5, an instance: [1010] takes the place of the stale [1000] in [full_table]. *)
Lemma TryAddPeer_evicts_only_stale_witness :
  (Size full_table
   <= Size (table4 2 hour [[queried "1010"; queried "1100"]; []])
   <= Size full_table + 1)%Z /\
  (true = true ->
   In "1010" (ListPeers (table4 2 hour [[queried "1010"; queried "1100"]; []]))) /\
  forall x, In x (ListPeers full_table) ->
    In x (ListPeers (table4 2 hour [[queried "1010"; queried "1100"]; []])) \/
    ((true, @None error) = (true, None) /\
     exists r, In r (snapshot full_table) /\ Id r = x /\
               stale hour (now env2020) r = true).
Proof.
  apply (TryAddPeer_evicts_only_stale 4 key4 5 env2020 full_table "1010" true
           (table4 2 hour [[queried "1010"; queried "1100"]; []])
           [PeerAdded "1010"] (true, None)).
  reflexivity.
Defined.

(** X6, an instance: [chain_table]. *)
Lemma reachable_ids_are_distinct_witness :
  NoDup (ListPeers chain_table) /\
  forall p,
    In p (ListPeers chain_table) <->
    exists b, nth_error (buckets chain_table) (bucketIdForPeer 4 key4 chain_table p)
              = Some b /\
              getPeer b p <> None.
Proof.
  apply (reachable_ids_are_distinct 4 key4 chain_table).
  exact chain_table_reachable.
Defined.

(** X7, an instance: [1000] is removed from [pair_table]. *)
Lemma RemovePeer_removes_exactly_witness :
  exists rt' evs,
    RemovePeer 4 key4 pair_table "1000" = Done (rt', evs) /\
    (In "1000" (ListPeers pair_table) ->
     evs = [PeerRemoved "1000"] /\ Size rt' = (Size pair_table - 1)%Z) /\
    (~ In "1000" (ListPeers pair_table) -> evs = [] /\ rt' = pair_table) /\
    (forall x, In x (ListPeers rt') <-> In x (ListPeers pair_table) /\ x <> "1000") /\
    RemovePeer 4 key4 rt' "1000" = Done (rt', []).
Proof.
  apply (RemovePeer_removes_exactly 4 key4 pair_table "1000").
  exact pair_table_reachable.
Defined.

(** X8, an instance: the timestamp of [0100] in [pair_table] is set to [7]. *)
Lemma Update_sets_one_timestamp_witness :
  exists rt' ok,
    UpdateLastSuccessfulOutboundQuery 4 key4 pair_table "0100" 7%Z = Done (rt', ok) /\
    (ok = true <-> In "0100" (ListPeers pair_table)) /\
    (ok = false -> rt' = pair_table) /\
    ListPeers rt' = ListPeers pair_table /\
    snapshot rt'
    = map (fun r => if String.eqb (Id r) "0100"
                    then {| Id := Id r; lastSuccessfulOutboundQuery := 7%Z;
                            dhtId := dhtId r |}
                    else r) (snapshot pair_table).
Proof.
  apply (Update_sets_one_timestamp 4 key4 pair_table "0100" 7%Z).
  exact pair_table_reachable.
Defined.

(** X9, an instance: [chain_table] has three buckets. *)
Lemma bucket_count_is_bounded_witness :
  (1 <= List.length (buckets chain_table) <= 4 + 2)%nat /\
  forall fuel e p queryPeer rt' evs res,
    TryAddPeer 4 key4 fuel e chain_table p queryPeer = Done (rt', evs, res) ->
    (List.length (buckets chain_table) <= List.length (buckets rt'))%nat.
Proof.
  apply (bucket_count_is_bounded 4 key4 chain_table).
  exact chain_table_reachable.
Defined.

(** X10, an instance: the scenario S5. *)
Lemma NearestPeers_returns_min_witness :
  (0 <= 2)%Z /\
  Z.of_nat (List.length ["0011"; "0001"])
  = Z.min 2 (Size (table4 2 hour [[queried "1100"; queried "1000"]; [];
                                  [queried "0011"]; [queried "0001"]])) /\
  (forall x, In x ["0011"; "0001"] ->
     In x (ListPeers (table4 2 hour [[queried "1100"; queried "1000"]; [];
                                     [queried "0011"]; [queried "0001"]]))) /\
  (NoDup (ListPeers (table4 2 hour [[queried "1100"; queried "1000"]; [];
                                    [queried "0011"]; [queried "0001"]])) ->
   NoDup ["0011"; "0001"]) /\
  ((Size (table4 2 hour [[queried "1100"; queried "1000"]; [];
                         [queried "0011"]; [queried "0001"]]) <= 2)%Z ->
   Permutation ["0011"; "0001"]
     (ListPeers (table4 2 hour [[queried "1100"; queried "1000"]; [];
                                [queried "0011"]; [queried "0001"]]))).
Proof.
  apply (NearestPeers_returns_min 4 limit32
           (table4 2 hour [[queried "1100"; queried "1000"]; [];
                           [queried "0011"]; [queried "0001"]])
           (key4 "0010") 2 ["0011"; "0001"]).
  reflexivity.
Defined.

(** X11, an instance: the bucket of [0001] in [chain_table] is out of
    range, the last bucket is searched. *)
Lemma NearestPeer_returns_a_listed_peer_witness :
  exists x,
    NearestPeer 4 limit32 chain_table (key4 "0001") = Done x /\
    (ListPeers chain_table = [] -> x = EmptyString) /\
    (ListPeers chain_table <> [] -> In x (ListPeers chain_table)).
Proof.
  apply (NearestPeer_returns_a_listed_peer 4 limit32 chain_table (key4 "0001")).
  - discriminate.
  - vm_compute. split; discriminate.
Defined.

(** X12, an instance: [1000] is not in [chain_table]. *)
Lemma Find_returns_p_or_nothing_witness :
  exists x,
    Find 4 key4 limit32 chain_table "1000" = Done x /\
    ((x = "1000" /\ In "1000" (ListPeers chain_table)) \/ x = EmptyString) /\
    (~ In "1000" (ListPeers chain_table) -> x = EmptyString).
Proof.
  apply (Find_returns_p_or_nothing 4 key4 limit32 chain_table "1000").
  - discriminate.
  - vm_compute. split; discriminate.
Defined.

(** X13, an instance: a tick on [pair_table] at which every ping fails. *)
Lemma background_tick_accounts_witness :
  exists rt' evs,
    background 4 key4 pair_table all_gone = Done (rt', evs) /\
    (forall ev, In ev evs -> exists p, ev = PeerRemoved p /\ In p (ListPeers pair_table)) /\
    Size rt' = (Size pair_table - Z.of_nat (List.length evs))%Z /\
    (forall x, In x (ListPeers rt') -> In x (ListPeers pair_table)) /\
    (forall x, In x (ListPeers pair_table) ->
       In x (ListPeers rt') \/ In (PeerRemoved x) evs) /\
    ((forall j, pingFails (all_gone j) = false \/ connected (all_gone j) = true) ->
     rt' = pair_table /\ evs = []).
Proof.
  apply (background_tick_accounts 4 key4 pair_table all_gone).
  discriminate.
Defined.

(** X14, an instance: [0010] and [pair_table]. *)
Lemma TryAddPeer_returns_witness :
  exists rt' evs res b0,
    TryAddPeer 4 key4 5 env2020 pair_table "0010" true = Done (rt', evs, res) /\
    nth_error (buckets pair_table) (bucketIdForPeer 4 key4 pair_table "0010") = Some b0 /\
    ((res = (true, None) /\ evs = [PeerAdded "0010"]) \/ (fst res = false /\ evs = [])) /\
    (res = (false, None) <-> In "0010" (peerIds b0)) /\
    (res = (false, None) -> rt' = pair_table).
Proof.
  apply (TryAddPeer_returns 4 key4 5 env2020 pair_table "0010" true).
  - discriminate.
  - simpl. lia.
  - lia.
Defined.

(** X15, an instance: the fresh table of bucket size zero. *)
Lemma nonpositive_bucketsize_holds_no_peer_witness :
  buckets (table4 0 hour [[]]) = [[]] /\ ListPeers (table4 0 hour [[]]) = [] /\
  forall fuel e p queryPeer,
    TryAddPeer 4 key4 fuel e (table4 0 hour [[]]) p queryPeer
    = if (maxLatency (table4 0 hour [[]]) <? LatencyEWMA e p)%Z
      then Done (table4 0 hour [[]], [], (false, Some ErrPeerRejectedHighLatency))
      else OutOfFuel.
Proof.
  apply (nonpositive_bucketsize_holds_no_peer 4 key4 (table4 0 hour [[]])).
  - apply fresh_reachable.
  - simpl. lia.
Defined.
